(** * goadb: the shell v2 decoder, FAIL classification and the Device facade

    A shallow embedding of [device.go] and of the [wire] utilities that come
    with it ([adbServerError], [DecodeV2Data], [DecodeDataFromReader]),
    together with the properties the specification states about them.

    Conventions.
    - A Go [[]byte] is a [list byte]; a Go [string] is a [string] (a sequence
      of bytes, as in Go).
    - Go's [int] is taken to be 64 bits wide, so that [int(dataLen)] of a
      [uint32] is the same number and [offset+5+int(dataLen)] cannot wrap
      for a slice that fits in memory. Offsets and lengths are in [Z].
    - A Go [error] is an [option error]: [None] is [nil].
    - An [io.Writer] that may be [nil] is an [option W] for a type [W] with
      a [Writer] instance. *)

From Stdlib Require Import ZArith List String Ascii Lia Bool DecimalString.
From stdpp Require Import base option list strings gmap.

Local Open Scope Z_scope.

(** ** Errors *)

(** Modelled from the spec: the package [internal/errors] is not part of the
    sources at hand.  The taxonomy of section 7 is a closed set of kinds. *)
Inductive ErrCode : Type :=
  | AssertionError
  | ParseError
  | NetworkError
  | ConnectionResetError
  | ServerNotAvailable
  | AdbError
  | DeviceNotFound.

#[global] Instance ErrCode_eq_dec : EqDecision ErrCode.
Proof. solve_decision. Defined.

(** Modelled from the spec: [DeviceDescriptor] is not part of the sources at
    hand.  Section 3: a selector for a device, with a host prefix used for
    attribute queries and a transport descriptor used to pin a connection
    to one device. *)
Inductive DeviceDescriptor : Type :=
  | AnyDevice
  | AnyUsbDevice
  | AnyLocalDevice
  | BySerial (serial : string).

Definition getHostPrefix (d : DeviceDescriptor) : string :=
  match d with
  | AnyDevice => "host"
  | AnyUsbDevice => "host-usb"
  | AnyLocalDevice => "host-local"
  | BySerial s => "host-serial:" +:+ s
  end.

Definition getTransportDescriptor (d : DeviceDescriptor) : string :=
  match d with
  | AnyDevice => "transport-any"
  | AnyUsbDevice => "transport-usb"
  | AnyLocalDevice => "transport-local"
  | BySerial s => "transport:" +:+ s
  end.

(** The [Details] payload of an [errors.Err].  [ErrorResponseDetails] is the
    struct declared in the [wire] package; [ClientDetails] is what a facade
    call attaches (the operation and the device it ran on). *)
Inductive details : Type :=
  | NoDetails
  | ErrorResponseDetails (Request ServerMsg : string)
  | ClientDetails (operation : string) (descriptor : DeviceDescriptor).

(** A Go [error] value: an [*errors.Err], or what [fmt.Errorf] builds from a
    format prefix and the error it prints with [%v]. *)
#[warnings="-register-all"]
Inductive error : Type :=
  | Err (Code : ErrCode) (Message : string) (Details : details)
        (Cause : option error)
  | fmtErrorf (prefix : string) (cause : error).

Definition Code (e : error) : option ErrCode :=
  match e with
  | Err c _ _ _ => Some c
  | fmtErrorf _ _ => None
  end.

Definition Message (e : error) : string :=
  match e with
  | Err _ m _ _ => m
  | fmtErrorf p _ => p
  end.

Definition Details (e : error) : details :=
  match e with
  | Err _ _ d _ => d
  | fmtErrorf _ _ => NoDetails
  end.

(** [%d] of a non-negative integer. *)
Definition decimal (n : Z) : string :=
  NilZero.string_of_uint (N.to_uint (Z.to_N n)).

(** Modelled from the spec: [errors.Errorf(code, format, args...)] is not
    part of the sources at hand; it builds an [Err] of the given kind whose
    message is the formatted text.  The caller passes the formatted text. *)
Definition Errorf (code : ErrCode) (msg : string) : error :=
  Err code msg NoDetails None.

(** ** Bytes *)

Abbreviation byte := Byte.byte.

Definition byte_to_Z (b : byte) : Z := Z.of_N (Byte.to_N b).

Definition byte_of_Z (z : Z) : byte :=
  default Byte.x00 (Byte.of_N (Z.to_N (z mod 256))).

Definition len {A} (l : list A) : Z := Z.of_nat (length l).

(** [data[lo:]] and [data[lo:hi]]. *)
Definition slice_from {A} (data : list A) (lo : Z) : list A :=
  drop (Z.to_nat lo) data.

Definition slice {A} (data : list A) (lo hi : Z) : list A :=
  take (Z.to_nat (hi - lo)) (drop (Z.to_nat lo) data).

(** [data[i]] for an index in range ([x00] stands for the panic of an index
    out of range, which the decoders never reach). *)
Definition index (data : list byte) (i : Z) : byte :=
  nth (Z.to_nat i) data Byte.x00.

(** [binary.LittleEndian.Uint32(b)]:
    [uint32(b[0]) | uint32(b[1])<<8 | uint32(b[2])<<16 | uint32(b[3])<<24]. *)
Definition Uint32 (b : list byte) : Z :=
  Z.lor (Z.lor (Z.lor (byte_to_Z (index b 0))
                      (Z.shiftl (byte_to_Z (index b 1)) 8))
               (Z.shiftl (byte_to_Z (index b 2)) 16))
        (Z.shiftl (byte_to_Z (index b 3)) 24).

(** [binary.LittleEndian.PutUint32], used to write packet headers down. *)
Definition PutUint32 (v : Z) : list byte :=
  [ byte_of_Z v; byte_of_Z (Z.shiftr v 8);
    byte_of_Z (Z.shiftr v 16); byte_of_Z (Z.shiftr v 24) ].

(** ** Writers and readers *)

(** [io.Writer]: [Write] returns the writer after the call and the error.
    The decoders never look at the byte count. *)
Class Writer (W : Type) := Write : W -> list byte -> W * option error.

(** [bytes.Buffer]: appends, never fails. *)
Definition Buffer := list byte.

#[global] Instance Buffer_Writer : Writer Buffer :=
  fun b p => (b ++ p, None).

(** A writer of bounded capacity, which refuses a write that does not fit
    (a full pipe or disk). *)
Record Bounded := { room : nat; written : list byte }.

#[global] Instance Bounded_Writer : Writer Bounded :=
  fun w p =>
    if (length p <=? room w)%nat
    then ({| room := room w - length p; written := written w ++ p |}, None)
    else (w, Some (Errorf NetworkError "short write")).

(** [w.Write(p)] on a sink that may be nil, for the call sites of the form
    [if w != nil { if _, err := w.Write(p); err != nil { return ... } }]. *)
Definition write_to {W} `{Writer W} (w : option W) (p : list byte)
  : option W * option error :=
  match w with
  | None => (None, None)
  | Some s => let '(s', e) := Write s p in (Some s', e)
  end.

(** [if stdout != nil { stdout.Write(p) }]: the result is dropped. *)
Definition write_dropping {W} `{Writer W} (w : option W) (p : list byte)
  : option W :=
  fst (write_to w p).

(** ** The shell v2 packet loop *)

Section Decoder.
Context {W1 W2 : Type} `{Writer W1, Writer W2}.

(** What one run of the loop [for offset < len(data) { ... }] ends in:
    the loop is left (its condition fails, or [break]), or the enclosing
    function returns from inside it. *)
Inductive loop_end : Type :=
  | Left (offset exitCode : Z) (stdout : option W1) (stderr : option W2)
  | Returned (exitCode : Z) (err : error)
             (stdout : option W1) (stderr : option W2).

(** The body of [for offset < len(data)], which [DecodeV2Data] and
    [DecodeDataFromReader] share word for word.  One unit of fuel is one
    iteration; [None] is fuel exhausted. *)
Fixpoint packetLoop (fuel : nat) (data : list byte) (offset exitCode : Z)
    (stdout : option W1) (stderr : option W2) : option loop_end :=
  match fuel with
  | O => None
  | S fuel =>
    if negb (offset <? len data) then
      Some (Left offset exitCode stdout stderr)
    else if len data <? offset + 5 then
      Some (Left offset exitCode
              (write_dropping stdout (slice_from data offset)) stderr)
    else
      let packetId := index data offset in
      let dataLen := Uint32 (slice data (offset + 1) (offset + 5)) in
      if len data <? offset + 5 + dataLen then
        Some (Left offset exitCode
                (write_dropping stdout (slice_from data offset)) stderr)
      else
        let packetData := slice data (offset + 5) (offset + 5 + dataLen) in
        let offset := offset + 5 + dataLen in
        match byte_to_Z packetId with
        | 1 =>
          match write_to stdout packetData with
          | (stdout, Some err) =>
            Some (Returned exitCode
                    (fmtErrorf "failed to write to stdout: " err)
                    stdout stderr)
          | (stdout, None) =>
            packetLoop fuel data offset exitCode stdout stderr
          end
        | 2 =>
          match write_to stderr packetData with
          | (stderr, Some err) =>
            Some (Returned exitCode
                    (fmtErrorf "failed to write to stderr: " err)
                    stdout stderr)
          | (stderr, None) =>
            packetLoop fuel data offset exitCode stdout stderr
          end
        | 3 =>
          let exitCode :=
            if 0 <? len packetData then byte_to_Z (index packetData 0)
            else exitCode in
          packetLoop fuel data offset exitCode stdout stderr
        | _ =>
          Some (Returned 0
                  (Errorf ParseError
                     ("unknown packet ID: " +:+ decimal (byte_to_Z packetId)))
                  stdout stderr)
        end
  end.

(** The outcome of a decoder: what it returns, and the two sinks after
    the call. *)
Record decoded : Type := Decoded {
  exit_code : Z;
  failure : option error;
  out_sink : option W1;
  err_sink : option W2
}.

(** [DecodeV2Data(data, stdout, stderr)].  Every iteration that does not
    leave the loop moves [offset] forward by at least 5, so
    [S (length data)] iterations are enough (see [DecodeV2Data_total]). *)
Definition DecodeV2Data (data : list byte)
    (stdout : option W1) (stderr : option W2) : option decoded :=
  match packetLoop (S (length data)) data 0 0 stdout stderr with
  | None => None
  | Some (Left _ exitCode stdout stderr) =>
      Some (Decoded exitCode None stdout stderr)
  | Some (Returned exitCode err stdout stderr) =>
      Some (Decoded exitCode (Some err) stdout stderr)
  end.

End Decoder.

(** ** Packets, as the specification draws them *)

(** [[u8 packetId][u32 LE length][length bytes payload]] *)
Record packet : Type := Packet { packetId : byte; payload : list byte }.

Definition encode_packet (p : packet) : list byte :=
  packetId p :: PutUint32 (len (payload p)) ++ payload p.

Definition encode (pkts : list packet) : list byte :=
  concat (map encode_packet pkts).

(** The length of the payload fits the 32-bit length field. *)
Definition wf_packet (p : packet) : Prop := len (payload p) < 2 ^ 32.

Definition known_id (p : packet) : Prop :=
  byte_to_Z (packetId p) = 1 \/ byte_to_Z (packetId p) = 2 \/
  byte_to_Z (packetId p) = 3.

(** A trailing fragment that is no packet: fewer than 5 bytes, or a header
    that declares more payload than is left. *)
Definition truncated (tail : list byte) : Prop :=
  tail <> [] /\ (len tail < 5 \/ len tail < 5 + Uint32 (slice tail 1 5)).

(** The payloads of the packets with the given id, in order. *)
Definition payloads_of (id : Z) (pkts : list packet) : list byte :=
  concat (map payload
            (List.filter (fun p => byte_to_Z (packetId p) =? id) pkts)).

(** An exit packet that carries a status: id 3 and a non-empty payload. *)
Definition carries_status (p : packet) : bool :=
  (byte_to_Z (packetId p) =? 3) && (0 <? len (payload p)).

(** The first payload byte of the last packet that carries a status, or
    [dflt] when there is none. *)
Definition exit_status (dflt : Z) (pkts : list packet) : Z :=
  match last (List.filter carries_status pkts) with
  | Some p => byte_to_Z (index (payload p) 0)
  | None => dflt
  end.

(** ** Reading the stream in pieces *)

(** What [reader.Read(buf)] reports besides the bytes: [nil], [io.EOF], or
    another error. *)
Inductive read_status : Type :=
  | ReadOk
  | ReadEOF
  | ReadErr (e : error).

(** [io.Reader]: [Read r n] is one call of [r.Read(buf)] with
    [len(buf) = n]; it gives the bytes put into [buf[:n']], the status, and
    the reader after the call. *)
Class Reader (R : Type) := Read : R -> nat -> list byte * read_status * R.

(** A reader that hands out the given chunks, one per call, and then
    reports [io.EOF] with no bytes.  A chunk larger than the buffer is
    handed out in buffer-sized pieces. *)
Definition Chunks := list (list byte).

#[global] Instance Chunks_Reader : Reader Chunks :=
  fun r n =>
    match r with
    | [] => ([], ReadEOF, [])
    | c :: r' =>
      if (length c <=? n)%nat then (c, ReadOk, r')
      else (take n c, ReadOk, drop n c :: r')
    end.

Section StreamDecoder.
Context {R W1 W2 : Type} `{Reader R, Writer W1, Writer W2}.

(** The body of [for { n, err := reader.Read(buf) ... }] in
    [DecodeDataFromReader].  [offset] and [exitCode] are declared before
    the loop and live across the reads.  One unit of fuel is one read. *)
Fixpoint readLoop (fuel : nat) (reader : R) (offset exitCode : Z)
    (stdout : option W1) (stderr : option W2)
  : option (decoded (W1:=W1) (W2:=W2)) :=
  match fuel with
  | O => None
  | S fuel =>
    let '(data, status, reader) := Read reader 4096 in
    match status with
    | ReadErr err =>
      Some (Decoded exitCode
              (Some (fmtErrorf "failed to read data: " err)) stdout stderr)
    | _ =>
      let eof := match status with ReadEOF => true | _ => false end in
      if (len data =? 0) && eof then
        Some (Decoded exitCode None stdout stderr)
      else
        match packetLoop (S (length data)) data offset exitCode
                stdout stderr with
        | None => None
        | Some (Returned exitCode err stdout stderr) =>
          Some (Decoded exitCode (Some err) stdout stderr)
        | Some (Left offset exitCode stdout stderr) =>
          if eof then Some (Decoded exitCode None stdout stderr)
          else readLoop fuel reader offset exitCode stdout stderr
        end
    end
  end.

(** [DecodeDataFromReader(reader, stdout, stderr)] *)
Definition DecodeDataFromReader (fuel : nat) (reader : R)
    (stdout : option W1) (stderr : option W2) : option decoded :=
  readLoop fuel reader 0 0 stdout stderr.

End StreamDecoder.

(** ** Strings *)

(** The double-quote character. *)
Definition dquote : ascii := ascii_of_nat 34.

(** The line feed, which [.] does not match. *)
Definition newline : ascii := ascii_of_nat 10.

Definition chars (s : string) : list ascii := list_ascii_of_string s.

(** [strings.ContainsRune(s, r)] for a rune below 128: a byte of [s] is
    [r]. *)
Fixpoint ContainsRune (s : string) (r : ascii) : bool :=
  match s with
  | EmptyString => false
  | String c s' => Ascii.eqb c r || ContainsRune s' r
  end.

(** [strings.HasPrefix(s, prefix)] *)
Fixpoint HasPrefix (s prefix : string) : bool :=
  match prefix, s with
  | EmptyString, _ => true
  | String _ _, EmptyString => false
  | String p prefix', String c s' => Ascii.eqb c p && HasPrefix s' prefix'
  end.

(** [strings.Contains(s, substr)]: [substr] starts somewhere in [s]. *)
Fixpoint Contains (s substr : string) : bool :=
  HasPrefix s substr ||
  match s with
  | EmptyString => false
  | String _ s' => Contains s' substr
  end.

(** [strings.Join(elems, sep)] *)
Fixpoint Join (elems : list string) (sep : string) : string :=
  match elems with
  | [] => EmptyString
  | [e] => e
  | e :: rest => e +:+ sep +:+ Join rest sep
  end.

(** ASCII whitespace: space, tab, line feed, vertical tab, form feed,
    carriage return. *)
Definition is_space (c : ascii) : bool :=
  let n := nat_of_ascii c in
  (n =? 32)%nat || ((9 <=? n)%nat && (n <=? 13)%nat).

(** Modelled from the spec: [containsWhitespace] is not part of the sources
    at hand.  "Arguments containing ASCII whitespace are wrapped in double
    quotes." *)
Fixpoint containsWhitespace (str : string) : bool :=
  match str with
  | EmptyString => false
  | String c s' => is_space c || containsWhitespace s'
  end.

(** Modelled from the spec: [isBlank] is not part of the sources at hand.
    A blank command is one with nothing but whitespace in it, the empty
    command included. *)
Fixpoint isBlank (str : string) : bool :=
  match str with
  | EmptyString => true
  | String c s' => is_space c && isBlank s'
  end.

(** ** Regular expressions *)

(** The fragment of [regexp] syntax that the [wire] package uses. *)
Inductive regex : Type :=
  | Void                          (* matches nothing *)
  | Eps                           (* the empty string *)
  | Lit (c : ascii)               (* one given byte *)
  | Dot                           (* [.]: any byte but the line feed *)
  | Cat (r1 r2 : regex)
  | Alt (r1 r2 : regex)
  | Star (r : regex).

(** [r?] *)
Definition Opt (r : regex) : regex := Alt r Eps.

(** A literal string. *)
Fixpoint Str (s : string) : regex :=
  match s with
  | EmptyString => Eps
  | String c s' => Cat (Lit c) (Str s')
  end.

(** The language of a regular expression. *)
Inductive Lang : regex -> list ascii -> Prop :=
  | Lang_Eps : Lang Eps []
  | Lang_Lit c : Lang (Lit c) [c]
  | Lang_Dot c : c <> newline -> Lang Dot [c]
  | Lang_Cat r1 r2 s1 s2 :
      Lang r1 s1 -> Lang r2 s2 -> Lang (Cat r1 r2) (s1 ++ s2)
  | Lang_Alt_l r1 r2 s : Lang r1 s -> Lang (Alt r1 r2) s
  | Lang_Alt_r r1 r2 s : Lang r2 s -> Lang (Alt r1 r2) s
  | Lang_Star_nil r : Lang (Star r) []
  | Lang_Star_app r s1 s2 :
      Lang r s1 -> Lang (Star r) s2 -> Lang (Star r) (s1 ++ s2).

(** Matching by derivatives. *)
Fixpoint nullable (r : regex) : bool :=
  match r with
  | Void | Lit _ | Dot => false
  | Eps | Star _ => true
  | Cat r1 r2 => nullable r1 && nullable r2
  | Alt r1 r2 => nullable r1 || nullable r2
  end.

Fixpoint deriv (c : ascii) (r : regex) : regex :=
  match r with
  | Void | Eps => Void
  | Lit d => if Ascii.eqb c d then Eps else Void
  | Dot => if Ascii.eqb c newline then Void else Eps
  | Cat r1 r2 =>
    if nullable r1 then Alt (Cat (deriv c r1) r2) (deriv c r2)
    else Cat (deriv c r1) r2
  | Alt r1 r2 => Alt (deriv c r1) (deriv c r2)
  | Star r1 => Cat (deriv c r1) (Star r1)
  end.

(** Some prefix of [s] is in the language of [r]. *)
Fixpoint match_prefix (r : regex) (s : list ascii) : bool :=
  nullable r ||
  match s with
  | [] => false
  | c :: s' => match_prefix (deriv c r) s'
  end.

(** [re.MatchString(s)]: the pattern is not anchored, so some substring of
    [s] is in the language of [re]. *)
Fixpoint match_anywhere (re : regex) (s : list ascii) : bool :=
  match_prefix re s ||
  match s with
  | [] => false
  | _ :: s' => match_anywhere re s'
  end.

Definition MatchString (re : regex) (s : string) : bool :=
  match_anywhere re (chars s).

(** ** FAIL classification *)

(** [regexp.MustCompile(`device( '.*')? not found`)] *)
Definition deviceNotFoundMessagePattern : regex :=
  Cat (Str "device")
      (Cat (Opt (Cat (Str " '") (Cat (Star Dot) (Str "'"))))
           (Str " not found")).

Definition adbServerError (request serverMsg : string) : error :=
  let msg :=
    if String.eqb request ""
    then "server error: " +:+ serverMsg
    else "server error for " +:+ request +:+ " request: " +:+ serverMsg in
  let errCode :=
    if MatchString deviceNotFoundMessagePattern serverMsg
    then DeviceNotFound else AdbError in
  Err errCode msg (ErrorResponseDetails request serverMsg) None.

(** ** Device states and the diff of two snapshots *)

Inductive DeviceState : Type :=
  | StateInvalid
  | StateUnauthorized
  | StateDisconnected
  | StateOffline
  | StateOnline.

#[global] Instance DeviceState_eq_dec : EqDecision DeviceState.
Proof. solve_decision. Defined.

Module Watcher.

Record DeviceStateChangedEvent : Type := Event {
  Serial : string;
  OldState : DeviceState;
  NewState : DeviceState
}.

#[global] Instance DeviceStateChangedEvent_eq_dec :
  EqDecision DeviceStateChangedEvent.
Proof. solve_decision. Defined.

(** The event, if any, for a serial of the old snapshot. *)
Definition old_event (new : gmap string DeviceState)
    (entry : string * DeviceState) : option DeviceStateChangedEvent :=
  let '(serial, oldState) := entry in
  match new !! serial with
  | None => Some (Event serial oldState StateDisconnected)
  | Some newState =>
    if decide (oldState = newState) then None
    else Some (Event serial oldState newState)
  end.

(** The event, if any, for a serial of the new snapshot. *)
Definition new_event (old : gmap string DeviceState)
    (entry : string * DeviceState) : option DeviceStateChangedEvent :=
  let '(serial, newState) := entry in
  match old !! serial with
  | None => Some (Event serial StateDisconnected newState)
  | Some _ => None
  end.

(** Modelled from the spec: [calculateStateDiffs] is not part of the sources
    at hand (its tests are).  Section 4.5, diff rules: for each serial in
    [new] but not [old], [{serial, Disconnected, new[serial]}]; for each
    serial in [old] but not [new], [{serial, old[serial], Disconnected}];
    for each serial in both with [old[s] != new[s]], [{serial, old[s],
    new[s]}]; otherwise no event. *)
Definition calculateStateDiffs (old new : gmap string DeviceState)
  : list DeviceStateChangedEvent :=
  omap (old_event new) (map_to_list old) ++
  omap (new_event old) (map_to_list new).

End Watcher.

(** ** The command line of a shell request *)

(** The argument between two double quotes, as [fmt.Sprintf] puts it. *)
Definition inQuotes (arg : string) : string :=
  String dquote arg +:+ String dquote EmptyString.

(** What the loop of [prepareCommandLine] leaves in [args[i]]. *)
Definition quoted (arg : string) : string :=
  if containsWhitespace arg then inQuotes arg else arg.

(** The loop [for i, arg := range args] of [prepareCommandLine]: the error
    of the first argument with a double quote in it, or the arguments with
    those that contain whitespace put in double quotes. *)
Fixpoint quoteArgs (i : Z) (args : list string) : list string + error :=
  match args with
  | [] => inl []
  | arg :: rest =>
    if ContainsRune arg dquote then
      inr (Errorf ParseError
             ("arg at index " +:+ decimal i +:+
              " contains an invalid double quote: " +:+ arg))
    else
      let arg' := if containsWhitespace arg then inQuotes arg else arg in
      match quoteArgs (i + 1) rest with
      | inl rest' => inl (arg' :: rest')
      | inr err => inr err
      end
  end.

(** [prepareCommandLine(cmd, args...)].  The Go code writes the quoted
    arguments back into the caller's slice; the callers in this file drop
    that slice, and the model does not keep it. *)
Definition prepareCommandLine (cmd : string) (args : list string)
  : string * option error :=
  if isBlank cmd then
    (EmptyString, Some (Errorf AssertionError "command cannot be empty"))
  else
    match quoteArgs 0 args with
    | inr err => (EmptyString, Some err)
    | inl args =>
      if 0 <? len args
      then (cmd +:+ " " +:+ Join args " ", None)
      else (cmd, None)
    end.

(** ** The Device facade *)

(** Modelled from the spec: [DirEntry] and [DeviceInfo] are not part of the
    sources at hand.  Section 3: [{name, mode, size, mtime}] and
    [{serial, product, model, device, usb}]. *)
Record DirEntry : Type := {
  Name : string; Mode : Z; Size : Z; ModifiedAt : Z
}.

Record DeviceInfo : Type := {
  DeviceInfo_Serial : string;
  Product : string;
  Model : string;
  DeviceInfo_Device : string;
  Usb : string
}.

(** What the facade is built on and the sources at hand do not hold: the
    server and the [wire] connections, the SYNC helpers of the package, the
    text of an error, and the clock.  [World] is everything a call can
    change or observe outside the program (the server, the sockets, the
    device, the local files); a call is a function from the world before
    it to its result and the world after it.

    A Go result that is a pointer (or an interface) and an error is a sum:
    the value, or the error. *)
Record Env : Type := {
  World : Type;
  Server : Type;
  Conn : Type;
  SyncConn : Type;
  RemoteReader : Type;
  RemoteWriter : Type;
  LocalReader : Type;
  LocalWriter : Type;
  DirEntries : Type;
  (* err.Error() *)
  ErrorText : error -> string;
  parseDeviceState : string -> DeviceState * option error;
  (* errors.WrapErrf(err, "error connecting to device '%s'", descriptor) *)
  WrapErrf : error -> DeviceDescriptor -> error;
  roundTripSingleResponse :
    Server -> string -> World -> list byte * option error * World;
  Dial : Server -> World -> (Conn + error) * World;
  (* conn.SendMessage([]byte(s)) and wire.SendMessageString(conn, s) *)
  SendMessage : Conn -> string -> World -> option error * World;
  ReadStatus : Conn -> string -> World -> string * option error * World;
  ReadUntilEof : Conn -> World -> list byte * option error * World;
  ReadUntilEofV2WithStd :
    forall (W1 W2 : Type) `{Writer W1, Writer W2},
      Conn -> option W1 -> option W2 ->
      World -> Z * option error * option W1 * option W2 * World;
  RoundTripSingleResponse :
    Conn -> list byte -> World -> list byte * option error * World;
  Close : Conn -> World -> unit * World;
  NewSyncConn : Conn -> SyncConn;
  CloseSync : SyncConn -> World -> unit * World;
  listDirEntries : SyncConn -> string -> World -> (DirEntries + error) * World;
  stat : SyncConn -> string -> World -> (DirEntry + error) * World;
  receiveFile :
    SyncConn -> string -> World -> (RemoteReader + error) * World;
  sendFile :
    SyncConn -> string -> Z -> Z -> World -> (RemoteWriter + error) * World;
  CloseReader : RemoteReader -> World -> unit * World;
  CloseWriter : RemoteWriter -> World -> unit * World;
  (* io.CopyN(dst, src, n) and io.Copy(dst, src) *)
  CopyN :
    LocalWriter -> RemoteReader -> Z -> World -> Z * option error * World;
  Copy : RemoteWriter -> LocalReader -> World -> Z * option error * World;
  (* time.Now() *)
  Now : World -> Z * World
}.

Definition IO (E : Env) (A : Type) : Type := World E -> A * World E.

#[global] Instance IO_ret (E : Env) : MRet (IO E) := fun _ a w => (a, w).

#[global] Instance IO_bind (E : Env) : MBind (IO E) :=
  fun _ _ f m w => let '(a, w') := m w in f a w'.

Record Device (E : Env) : Type := {
  server : Server E;
  descriptor : DeviceDescriptor;
  deviceListFunc : IO E (list DeviceInfo * option error)
}.
Arguments server {E}.
Arguments descriptor {E}.
Arguments deviceListFunc {E}.

Section Facade.
Context {E : Env}.

(** Modelled from the spec: [wrapClientError] is not part of the sources
    at hand.  Section 7: "Every public call wraps its failure with the
    operation name and the device descriptor for context."  The wrapper
    keeps the kind of the error it wraps (for an error that has none,
    [AssertionError]) and holds that error as its cause. *)
Definition clientError (err : error) (c : Device E) (operation : string)
  : error :=
  Err (default AssertionError (Code err)) operation
      (ClientDetails operation (descriptor c)) (Some err).

(** [wrapClientError(nil, ...)] is [nil]. *)
Definition wrapClientError (err : option error) (c : Device E)
    (operation : string) : option error :=
  (fun e => clientError e c operation) <$> err.

(** [return v, wrapClientError(err, c, operation)] for a result that is
    a pointer. *)
Definition wrapResult {T} (r : T + error) (c : Device E)
    (operation : string) : T + error :=
  match r with
  | inl v => inl v
  | inr err => inr (clientError err c operation)
  end.

Definition getAttribute (c : Device E) (attr : string)
  : IO E (string * option error) :=
  '(resp, err) ← roundTripSingleResponse E (server c)
                   (getHostPrefix (descriptor c) +:+ ":" +:+ attr);
  match err with
  | Some err => mret (EmptyString, Some err)
  | None => mret (string_of_list_byte resp, None)
  end.

Definition dialDevice (c : Device E) : IO E (Conn E + error) :=
  r ← Dial E (server c);
  match r with
  | inr err => mret (inr err)
  | inl conn =>
    let req := "host:" +:+ getTransportDescriptor (descriptor c) in
    err ← SendMessage E conn req;
    match err with
    | Some err =>
      _ ← Close E conn;
      mret (inr (WrapErrf E err (descriptor c)))
    | None =>
      '(_, err) ← ReadStatus E conn req;
      match err with
      | Some err => _ ← Close E conn; mret (inr err)
      | None => mret (inl conn)
      end
    end
  end.

Definition getSyncConn (c : Device E) : IO E (SyncConn E + error) :=
  r ← dialDevice c;
  match r with
  | inr err => mret (inr err)
  | inl conn =>
    err ← SendMessage E conn "sync:";
    match err with
    | Some err => mret (inr err)
    | None =>
      '(_, err) ← ReadStatus E conn "sync";
      match err with
      | Some err => mret (inr err)
      | None => mret (inl (NewSyncConn E conn))
      end
    end
  end.

Definition product (c : Device E) : IO E (string * option error) :=
  '(attr, err) ← getAttribute c "get-product";
  mret (attr, wrapClientError err c "Product").

Definition Serial (c : Device E) : IO E (string * option error) :=
  '(attr, err) ← getAttribute c "get-serialno";
  mret (attr, wrapClientError err c "Serial").

Definition DevicePath (c : Device E) : IO E (string * option error) :=
  '(attr, err) ← getAttribute c "get-devpath";
  mret (attr, wrapClientError err c "DevicePath").

Definition State (c : Device E) : IO E (DeviceState * option error) :=
  '(attr, err) ← getAttribute c "get-state";
  match err with
  | Some err =>
    if Contains (ErrorText E err) "unauthorized"
    then mret (StateUnauthorized, None)
    else mret (StateInvalid, wrapClientError (Some err) c "State")
  | None =>
    let '(state, err) := parseDeviceState E attr in
    mret (state, wrapClientError err c "State")
  end.
(** [Device.DeviceInfo()] *)
Definition Device_DeviceInfo (c : Device E) : IO E (DeviceInfo + error) :=
  '(serial, err) ← Serial c;
  match err with
  | Some err => mret (inr (clientError err c "GetDeviceInfo(GetSerial)"))
  | None =>
    '(devices, err) ← deviceListFunc c;
    match err with
    | Some err => mret (inr (clientError err c "DeviceInfo(ListDevices)"))
    | None =>
      match List.find (fun d => String.eqb (DeviceInfo_Serial d) serial)
              devices with
      | Some deviceInfo => mret (inl deviceInfo)
      | None =>
        let err :=
          Errorf DeviceNotFound
            ("device list doesn't contain serial " +:+ serial) in
        mret (inr (clientError err c "DeviceInfo"))
      end
    end
  end.

Definition RunCommand (c : Device E) (cmd : string) (args : list string)
  : IO E (string * option error) :=
  let '(cmd, err) := prepareCommandLine cmd args in
  match err with
  | Some _ => mret (EmptyString, wrapClientError err c "RunCommand")
  | None =>
    r ← dialDevice c;
    match r with
    | inr err =>
      mret (EmptyString, wrapClientError (Some err) c "RunCommand")
    | inl conn =>
      let req := "shell:" +:+ cmd in
      err ← SendMessage E conn req;
      match err with
      | Some _ =>
        _ ← Close E conn;
        mret (EmptyString, wrapClientError err c "RunCommand")
      | None =>
        '(_, err) ← ReadStatus E conn req;
        match err with
        | Some _ =>
          _ ← Close E conn;
          mret (EmptyString, wrapClientError err c "RunCommand")
        | None =>
          '(resp, err) ← ReadUntilEof E conn;
          _ ← Close E conn;
          mret (string_of_list_byte resp,
                wrapClientError err c "RunCommand")
        end
      end
    end
  end.

Definition RunCommandV2WithStd {W1 W2 : Type} `{Writer W1, Writer W2}
    (c : Device E) (stdout : option W1) (stderr : option W2)
    (cmd : string) (args : list string)
  : IO E (Z * option error * option W1 * option W2) :=
  let '(cmd, err) := prepareCommandLine cmd args in
  match err with
  | Some _ => mret (-1, wrapClientError err c "RunCommand", stdout, stderr)
  | None =>
    r ← dialDevice c;
    match r with
    | inr err =>
      mret (-1, wrapClientError (Some err) c "RunCommand", stdout, stderr)
    | inl conn =>
      let req := "shell,v2,TERM=xterm-256color,raw:" +:+ cmd in
      err ← SendMessage E conn req;
      match err with
      | Some _ =>
        _ ← Close E conn;
        mret (-1, wrapClientError err c "RunCommand", stdout, stderr)
      | None =>
        '(_, err) ← ReadStatus E conn req;
        match err with
        | Some _ =>
          _ ← Close E conn;
          mret (-1, wrapClientError err c "RunCommand", stdout, stderr)
        | None =>
          '(exitCode, err, stdout, stderr) ←
            ReadUntilEofV2WithStd E W1 W2 conn stdout stderr;
          _ ← Close E conn;
          mret (exitCode, err, stdout, stderr)
        end
      end
    end
  end.

Definition RunCommandV2 (c : Device E) (cmd : string) (args : list string)
  : IO E (Z * string * string * option error) :=
  let stdoutBuf : Buffer := [] in
  let stderrBuf : Buffer := [] in
  '(exitCode, err, stdoutBuf, stderrBuf) ←
    RunCommandV2WithStd c (Some stdoutBuf) (Some stderrBuf) cmd args;
  mret (exitCode,
        string_of_list_byte (default [] stdoutBuf),
        string_of_list_byte (default [] stderrBuf), err).

Definition Remount (c : Device E) : IO E (string * option error) :=
  r ← dialDevice c;
  match r with
  | inr err => mret (EmptyString, wrapClientError (Some err) c "Remount")
  | inl conn =>
    '(resp, err) ←
      RoundTripSingleResponse E conn (list_byte_of_string "remount");
    _ ← Close E conn;
    mret (string_of_list_byte resp, wrapClientError err c "Remount")
  end.

Definition ListDirEntries (c : Device E) (path : string)
  : IO E (DirEntries E + error) :=
  let operation := "ListDirEntries(" +:+ path +:+ ")" in
  r ← getSyncConn c;
  match r with
  | inr err => mret (inr (clientError err c operation))
  | inl conn =>
    entries ← listDirEntries E conn path;
    mret (wrapResult entries c operation)
  end.

Definition Stat (c : Device E) (path : string) : IO E (DirEntry + error) :=
  let operation := "Stat(" +:+ path +:+ ")" in
  r ← getSyncConn c;
  match r with
  | inr err => mret (inr (clientError err c operation))
  | inl conn =>
    entry ← stat E conn path;
    _ ← CloseSync E conn;
    mret (wrapResult entry c operation)
  end.

Definition OpenRead (c : Device E) (path : string)
  : IO E (RemoteReader E + error) :=
  let operation := "OpenRead(" +:+ path +:+ ")" in
  r ← getSyncConn c;
  match r with
  | inr err => mret (inr (clientError err c operation))
  | inl conn =>
    reader ← receiveFile E conn path;
    mret (wrapResult reader c operation)
  end.

Definition OpenWrite (c : Device E) (path : string) (perms mtime : Z)
  : IO E (RemoteWriter E + error) :=
  let operation := "OpenWrite(" +:+ path +:+ ")" in
  r ← getSyncConn c;
  match r with
  | inr err => mret (inr (clientError err c operation))
  | inl conn =>
    writer ← sendFile E conn path perms mtime;
    mret (wrapResult writer c operation)
  end.

(** [localFile] is an [io.Writer] that may be nil. *)
Definition Pull (c : Device E) (remotePath : string)
    (localFile : option (LocalWriter E)) : IO E (option error) :=
  if String.eqb remotePath "" then
    mret (Some (Errorf AssertionError "remotePath cannot be empty"))
  else
    match localFile with
    | None => mret (Some (Errorf AssertionError "localFile cannot be nil"))
    | Some localFile =>
      r ← Stat c remotePath;
      match r with
      | inr err => mret (Some err)
      | inl info =>
        r ← OpenRead c remotePath;
        match r with
        | inr err => mret (Some err)
        | inl remoteFile =>
          '(_, err) ← CopyN E localFile remoteFile (Size info);
          _ ← CloseReader E remoteFile;
          mret err
        end
      end
    end.

(** [localFile] is an [io.Reader] that may be nil. *)
Definition Push (c : Device E) (localFile : option (LocalReader E))
    (remotePath : string) : IO E (option error) :=
  if String.eqb remotePath "" then
    mret (Some (Errorf AssertionError "remotePath cannot be empty"))
  else
    match localFile with
    | None => mret (Some (Errorf AssertionError "localFile cannot be nil"))
    | Some localFile =>
      mtime ← Now E;
      r ← OpenWrite c remotePath 0x666 mtime;
      match r with
      | inr err => mret (Some err)
      | inl writer =>
        '(_, err) ← Copy E writer localFile;
        _ ← CloseWriter E writer;
        mret err
      end
    end.

End Facade.

(** ** A scripted server *)

(** A server in the manner of the [MockServer] of the package's tests: it
    holds the errors that the coming calls are to return, one per call
    ([None] for a call that succeeds), and records the calls it gets. *)
Record MockServer : Type := {
  Errs : list (option error);
  Trace : list string
}.

(** One call on the scripted server: record it, and take its outcome from
    the script (success once the script is used up). *)
Definition scripted_call (name : string) (w : MockServer)
  : option error * MockServer :=
  (mjoin (head (Errs w)), {| Errs := tail (Errs w); Trace := Trace w ++ [name] |}).

Definition scripted_ptr (name : string) (w : MockServer)
  : (unit + error) * MockServer :=
  let '(err, w) := scripted_call name w in
  (match err with Some e => inr e | None => inl tt end, w).

(** Section 4.5, device-state text: [offline], [device], [unauthorized];
    anything else is [Invalid]. *)
Definition parseDeviceState_text (s : string) : DeviceState * option error :=
  if String.eqb s "offline" then (StateOffline, None)
  else if String.eqb s "device" then (StateOnline, None)
  else if String.eqb s "unauthorized" then (StateUnauthorized, None)
  else (StateInvalid, None).

Definition scripted : Env := {|
  World := MockServer;
  Server := unit;
  Conn := unit;
  SyncConn := unit;
  RemoteReader := unit;
  RemoteWriter := unit;
  LocalReader := unit;
  LocalWriter := unit;
  DirEntries := unit;
  ErrorText := Message;
  parseDeviceState := parseDeviceState_text;
  WrapErrf := fun err _ =>
    Err (default AssertionError (Code err)) "error connecting to device"
        NoDetails (Some err);
  roundTripSingleResponse := fun _ _ w =>
    let '(err, w) := scripted_call "RoundTrip" w in ([], err, w);
  Dial := fun _ => scripted_ptr "Dial";
  SendMessage := fun _ _ => scripted_call "SendMessage";
  ReadStatus := fun _ _ w =>
    let '(err, w) := scripted_call "ReadStatus" w in ("OKAY", err, w);
  ReadUntilEof := fun _ w =>
    let '(err, w) := scripted_call "ReadUntilEof" w in ([], err, w);
  ReadUntilEofV2WithStd := fun W1 W2 _ _ _ stdout stderr w =>
    let '(err, w) := scripted_call "ReadUntilEofV2WithStd" w in
    (0, err, stdout, stderr, w);
  RoundTripSingleResponse := fun _ _ w =>
    let '(err, w) := scripted_call "RoundTripSingleResponse" w in
    ([], err, w);
  Close := fun _ w => let '(_, w) := scripted_call "Close" w in (tt, w);
  NewSyncConn := fun _ => tt;
  CloseSync := fun _ w => let '(_, w) := scripted_call "Close" w in (tt, w);
  listDirEntries := fun _ _ => scripted_ptr "LIST";
  stat := fun _ _ w =>
    let '(err, w) := scripted_call "STAT" w in
    (match err with
     | Some e => inr e
     | None => inl {| Name := ""; Mode := 0; Size := 0; ModifiedAt := 0 |}
     end, w);
  receiveFile := fun _ _ => scripted_ptr "RECV";
  sendFile := fun _ _ _ _ => scripted_ptr "SEND";
  CloseReader := fun _ w => let '(_, w) := scripted_call "Close" w in (tt, w);
  CloseWriter := fun _ w => let '(_, w) := scripted_call "Close" w in (tt, w);
  CopyN := fun _ _ n w =>
    let '(err, w) := scripted_call "CopyN" w in (n, err, w);
  Copy := fun _ _ w =>
    let '(err, w) := scripted_call "Copy" w in (0, err, w);
  Now := fun w => (0, w)
|}.

(** A device on the scripted server. *)
Definition scripted_device (d : DeviceDescriptor) : Device scripted := {|
  server := tt : Server scripted;
  descriptor := d;
  deviceListFunc := fun w =>
    let '(err, w) := scripted_call "ListDevices" w in ([], err, w)
|}.

(** A server that has this script left and has seen no call yet. *)
Definition script (errs : list (option error)) : MockServer :=
  {| Errs := errs; Trace := [] |}.

(** ** The streams of the scenarios of section 8 *)

(** Scenario 3: [01 05 00 00 00 h e l l o 02 03 00 00 00 e r r 03 01 00 00
    00 2A]. *)
Definition shell_v2_stream : list byte :=
  [ Byte.x01; Byte.x05; Byte.x00; Byte.x00; Byte.x00;
    Byte.x68; Byte.x65; Byte.x6c; Byte.x6c; Byte.x6f;
    Byte.x02; Byte.x03; Byte.x00; Byte.x00; Byte.x00;
    Byte.x65; Byte.x72; Byte.x72;
    Byte.x03; Byte.x01; Byte.x00; Byte.x00; Byte.x00; Byte.x2a ].

(** Scenario 4: [01 05 00 00 00 h i]. *)
Definition shell_v2_truncated : list byte :=
  [ Byte.x01; Byte.x05; Byte.x00; Byte.x00; Byte.x00; Byte.x68; Byte.x69 ].

(** ** Matching on the server's message *)


(** ** Writing all of a slice *)

(** Modelled from the spec: [errors.WrapErrorf(err, code, format, args...)]
    is not part of the sources at hand; it builds an [Err] of the given
    kind around [err] (section 4.1: a write failure mid-message is a
    [NetworkError]).  The caller passes the formatted text. *)
Definition WrapErrorf (err : error) (code : ErrCode) (msg : string) : error :=
  Err code msg NoDetails (Some err).

(** An [io.Writer] whose byte count matters: [WriteSome w p] is one call of
    [w.Write(p)]; it gives the writer after the call, the number of bytes
    it took, and the error. *)
Class CountingWriter (W : Type) :=
  WriteSome : W -> list byte -> W * Z * option error.

(** A pipe that takes at most [burst] bytes per call, has room for [space]
    more bytes, and fails once it is full. *)
Record Pipe : Type := { burst : nat; space : nat; taken : list byte }.

#[global] Instance Pipe_CountingWriter : CountingWriter Pipe :=
  fun w p =>
    match space w, p with
    | O, _ :: _ => (w, 0, Some (Errorf NetworkError "pipe is full"))
    | _, _ =>
      let n := (length p `min` (burst w `min` space w))%nat in
      ({| burst := burst w; space := space w - n;
          taken := taken w ++ take n p |}, Z.of_nat n, None)
    end.

(** The loop [for offset < len(data)] of [writeFully].  One unit of fuel is
    one call of [Write]. *)
Fixpoint writeLoop {W} `{CountingWriter W} (fuel : nat) (w : W)
    (data : list byte) (offset : Z) : option (W * option error) :=
  match fuel with
  | O => None
  | S fuel =>
    if offset <? len data then
      let '(w, n, err) := WriteSome w (slice_from data offset) in
      match err with
      | Some err =>
        Some (w, Some (WrapErrorf err NetworkError
                         ("error writing " +:+ decimal (len data) +:+
                          " bytes at offset " +:+ decimal offset)))
      | None => writeLoop fuel w data (offset + n)
      end
    else Some (w, None)
  end.

(** [writeFully(w, data)] *)
Definition writeFully {W} `{CountingWriter W} (fuel : nat) (w : W)
    (data : list byte) : option (W * option error) :=
  writeLoop fuel w data 0.

(** ** Closing more than once *)

Module MultiClose.

(** [io.Closer]: [Close c] gives the closer after the call and the error. *)
Class Closer (C : Type) := Close : C -> C * option error.

(** [multiCloseable]: the wrapped closer, the [sync.Once] (done or not),
    and the error of the one call it lets through. *)
Record multiCloseable (C : Type) : Type := {
  ReadWriteCloser : C;
  closeOnce : bool;
  err : option error
}.
Arguments ReadWriteCloser {C}.
Arguments closeOnce {C}.
Arguments err {C}.

(** [MultiCloseable(c)] *)
Definition MultiCloseable {C} (c : C) : multiCloseable C :=
  {| ReadWriteCloser := c; closeOnce := false; err := None |}.

(** [(c *multiCloseable) Close()]: [closeOnce.Do] runs the function the
    first time only. *)
Definition multiClose {C} `{Closer C} (c : multiCloseable C)
  : multiCloseable C * option error :=
  if closeOnce c then (c, err c)
  else
    let '(rwc, e) := Close (ReadWriteCloser c) in
    ({| ReadWriteCloser := rwc; closeOnce := true; err := e |}, e).

(** [n] calls of [Close] in a row, with what each returned. *)
Fixpoint closes {C} `{Closer C} (n : nat) (c : multiCloseable C)
  : multiCloseable C * list (option error) :=
  match n with
  | O => (c, [])
  | S n =>
    let '(c, e) := multiClose c in
    let '(c, es) := closes n c in
    (c, e :: es)
  end.

(** A socket that counts the calls of its [Close] and, as sockets do,
    reports an error when it is closed again. *)
Record Socket : Type := { closed : nat }.

#[global] Instance Socket_Closer : Closer Socket :=
  fun s =>
    ({| closed := S (closed s) |},
     match closed s with
     | O => None
     | S _ => Some (Errorf NetworkError "use of closed network connection")
     end).

End MultiClose.

(** ** Reading a command line back *)

(** How the other side takes a command line apart: a space outside double
    quotes ends a word, a double quote opens or closes a quoted stretch and
    is not part of the word.  [cur] is the word read so far. *)
Fixpoint words_from (s : string) (inQuote : bool) (cur : string)
  : list string :=
  match s with
  | EmptyString => [cur]
  | String c s' =>
    if Ascii.eqb c dquote then words_from s' (negb inQuote) cur
    else if Ascii.eqb c " " && negb inQuote then cur :: words_from s' false ""
    else words_from s' inQuote (cur +:+ String c EmptyString)
  end.

Definition commandWords (s : string) : list string :=
  words_from s false "".


(** A device on the scripted server whose list of devices holds one entry,
    with the serial that the scripted server reports (the empty one). *)
Definition listed_info : DeviceInfo :=
  {| DeviceInfo_Serial := ""; Product := "sdk"; Model := "Pixel";
     DeviceInfo_Device := "generic"; Usb := "" |}.

Definition listed_device : Device scripted := {|
  server := tt : Server scripted;
  descriptor := AnyDevice;
  deviceListFunc := fun w => ([listed_info], None, w)
|}.

(** Whether the first call on a scripted server succeeds. *)
Definition first_call_succeeds (errs : list (option error)) : bool :=
  match mjoin (head errs) with
  | Some _ => false
  | None => true
  end.

(** How many times a call is in a trace. *)
Definition calls (name : string) (trace : list string) : nat :=
  length (List.filter (String.eqb name) trace).


(** The trace of a call that closes the connection it opened once, as the
    last thing it does, and closes nothing when the dial, the first call of
    the script, failed. *)
Definition closes_conn_once (errs : list (option error))
    (trace : list string) : Prop :=
  calls "Close" trace = (if first_call_succeeds errs then 1 else 0)%nat /\
  (first_call_succeeds errs = true -> last trace = Some "Close").


(** * Properties *)

(** ** Arithmetic of the length field *)

Lemma byte_to_Z_range (b : byte) : 0 <= byte_to_Z b < 256.
Proof.
  unfold byte_to_Z. pose proof (Byte.to_N_bounded b). lia.
Qed.

Lemma byte_to_of_Z (z : Z) : byte_to_Z (byte_of_Z z) = z mod 256.
Proof.
  unfold byte_to_Z, byte_of_Z.
  assert (Hr : 0 <= z mod 256 < 256) by (apply Z.mod_pos_bound; lia).
  destruct (Byte.of_N (Z.to_N (z mod 256))) as [b|] eqn:E; simpl.
  - apply Byte.to_of_N in E. rewrite E. lia.
  - apply Byte.of_N_None_iff in E. lia.
Qed.


Lemma lor_shiftl_add (a b n : Z) :
  0 <= n -> 0 <= a < 2 ^ n -> 0 <= b ->
  Z.lor a (Z.shiftl b n) = a + b * 2 ^ n.
Proof.
  intros Hn Ha Hb. rewrite Z.shiftl_mul_pow2 by lia.
  assert (Hland : Z.land a (b * 2 ^ n) = 0).
  { apply Z.bits_inj'. intros i Hi.
    rewrite Z.land_spec, Z.bits_0.
    destruct (Z_lt_le_dec i n) as [Hlt|Hge].
    - rewrite (Z.mul_pow2_bits_low b n i) by lia. apply andb_false_r.
    - rewrite <- (Z.mod_small a (2 ^ n)) by lia.
      rewrite Z.mod_pow2_bits_high by lia. reflexivity. }
  rewrite <- Z.lxor_lor by exact Hland.
  symmetry. apply Z.add_nocarry_lxor. exact Hland.
Qed.

Lemma Uint32_sum (b0 b1 b2 b3 : byte) (rest : list byte) :
  Uint32 (b0 :: b1 :: b2 :: b3 :: rest) =
  byte_to_Z b0 + byte_to_Z b1 * 2 ^ 8 + byte_to_Z b2 * 2 ^ 16
  + byte_to_Z b3 * 2 ^ 24.
Proof.
  unfold Uint32, index. simpl nth.
  pose proof (byte_to_Z_range b0). pose proof (byte_to_Z_range b1).
  pose proof (byte_to_Z_range b2). pose proof (byte_to_Z_range b3).
  rewrite (lor_shiftl_add _ _ 8) by lia.
  rewrite (lor_shiftl_add _ _ 16) by lia.
  rewrite (lor_shiftl_add _ _ 24) by lia.
  reflexivity.
Qed.

Lemma Uint32_range (b : list byte) : 0 <= Uint32 b < 2 ^ 32.
Proof.
  assert (Hgen : forall b0 b1 b2 b3 : byte,
    0 <= Z.lor (Z.lor (Z.lor (byte_to_Z b0) (Z.shiftl (byte_to_Z b1) 8))
                      (Z.shiftl (byte_to_Z b2) 16))
               (Z.shiftl (byte_to_Z b3) 24) < 2 ^ 32).
  { intros b0 b1 b2 b3.
    change (0 <= Uint32 [b0; b1; b2; b3] < 2 ^ 32).
    rewrite Uint32_sum.
    pose proof (byte_to_Z_range b0). pose proof (byte_to_Z_range b1).
    pose proof (byte_to_Z_range b2). pose proof (byte_to_Z_range b3). lia. }
  apply Hgen.
Qed.

Lemma Uint32_PutUint32 (v : Z) (rest : list byte) :
  0 <= v < 2 ^ 32 -> Uint32 (PutUint32 v ++ rest) = v.
Proof.
  intros Hv. unfold PutUint32. simpl app. rewrite Uint32_sum.
  rewrite !byte_to_of_Z, !Z.shiftr_div_pow2 by lia.
  change (2 ^ 8) with 256. change (2 ^ 16) with 65536.
  change (2 ^ 24) with 16777216. change (2 ^ 32) with 4294967296 in Hv.
  Z.to_euclidean_division_equations. lia.
Qed.



(** ** Slices of a stream that starts after a prefix *)

Lemma len_app {A} (l1 l2 : list A) : len (l1 ++ l2) = len l1 + len l2.
Proof. unfold len. rewrite length_app. lia. Qed.

Lemma len_nonneg {A} (l : list A) : 0 <= len l.
Proof. unfold len. lia. Qed.

Lemma slice_from_app {A} (pre l : list A) (o : Z) :
  0 <= o -> slice_from (pre ++ l) (len pre + o) = slice_from l o.
Proof.
  intros Ho. unfold slice_from, len.
  replace (Z.to_nat (Z.of_nat (length pre) + o))
    with (length pre + Z.to_nat o)%nat by lia.
  apply drop_app_add.
Qed.

Lemma slice_app {A} (pre l : list A) (a b : Z) :
  0 <= a -> slice (pre ++ l) (len pre + a) (len pre + b) = slice l a b.
Proof.
  intros Ha. unfold slice.
  replace (len pre + b - (len pre + a)) with (b - a) by lia.
  f_equal. apply (slice_from_app pre l a Ha).
Qed.

Lemma index_app (pre l : list byte) (i : Z) :
  0 <= i -> index (pre ++ l) (len pre + i) = index l i.
Proof.
  intros Hi. unfold index, len.
  replace (Z.to_nat (Z.of_nat (length pre) + i))
    with (length pre + Z.to_nat i)%nat by lia.
  rewrite app_nth2_plus. reflexivity.
Qed.

Lemma len_PutUint32 (v : Z) : len (PutUint32 v) = 4.
Proof. reflexivity. Qed.

Lemma len_encode_packet (p : packet) :
  len (encode_packet p) = 5 + len (payload p).
Proof.
  unfold encode_packet, len, PutUint32. simpl. lia.
Qed.

Lemma encode_cons (p : packet) (pkts : list packet) :
  encode (p :: pkts) = encode_packet p ++ encode pkts.
Proof. reflexivity. Qed.

Lemma length_encode (pkts : list packet) :
  (length pkts <= length (encode pkts))%nat.
Proof.
  induction pkts as [|p pkts IH]; [simpl; lia|].
  rewrite encode_cons, length_app.
  pose proof (len_encode_packet p) as Hp. pose proof (len_nonneg (payload p)).
  unfold len in *. simpl length at 1. lia.
Qed.

(** The header of a packet that starts at [len pre] reads back. *)
Lemma header_at (pre : list byte) (p : packet) (rest : list byte) :
  wf_packet p ->
  index (pre ++ encode_packet p ++ rest) (len pre) = packetId p /\
  Uint32 (slice (pre ++ encode_packet p ++ rest) (len pre + 1) (len pre + 5))
  = len (payload p) /\
  slice (pre ++ encode_packet p ++ rest) (len pre + 5)
        (len pre + 5 + len (payload p)) = payload p.
Proof.
  intros Hwf. unfold wf_packet in Hwf.
  pose proof (len_nonneg (payload p)) as Hn.
  split; [|split].
  - rewrite <- (Z.add_0_r (len pre)), index_app by lia. reflexivity.
  - rewrite slice_app by lia. unfold encode_packet, slice.
    change (Z.to_nat 1) with 1%nat. change (Z.to_nat (5 - 1)) with 4%nat.
    unfold PutUint32. cbn [app drop take].
    apply (Uint32_PutUint32 (len (payload p)) []). lia.
  - replace (len pre + 5 + len (payload p))
      with (len pre + (5 + len (payload p))) by lia.
    rewrite slice_app by lia. unfold encode_packet, slice.
    change (Z.to_nat 5) with 5%nat.
    replace (Z.to_nat (5 + len (payload p) - 5))
      with (length (payload p)) by (unfold len; lia).
    unfold PutUint32. cbn [app drop].
    apply take_app_length.
Qed.

(** ** One iteration of the packet loop *)

Lemma switch_id {A} (z : Z) (a b c d : A) :
  match z with 1 => a | 2 => b | 3 => c | _ => d end =
  if z =? 1 then a else if z =? 2 then b else if z =? 3 then c else d.
Proof.
  destruct z as [|q|q]; try reflexivity.
  destruct q as [[q|q|]|[q|q|]|]; reflexivity.
Qed.

Section DecoderFacts.
Context {W1 W2 : Type} `{Writer W1, Writer W2}.

(** The loop at the start of a whole packet: the packet is taken off and
    dispatched on its id. *)
Lemma packetLoop_packet (fuel : nat) (pre : list byte) (p : packet)
    (rest : list byte) (ec : Z) (out : option W1) (err : option W2) :
  wf_packet p ->
  packetLoop (S fuel) (pre ++ encode_packet p ++ rest) (len pre) ec out err =
  let data := pre ++ encode_packet p ++ rest in
  let offset := len pre + 5 + len (payload p) in
  if byte_to_Z (packetId p) =? 1 then
    match write_to out (payload p) with
    | (out, Some e) =>
      Some (Returned ec (fmtErrorf "failed to write to stdout: " e) out err)
    | (out, None) => packetLoop fuel data offset ec out err
    end
  else if byte_to_Z (packetId p) =? 2 then
    match write_to err (payload p) with
    | (err, Some e) =>
      Some (Returned ec (fmtErrorf "failed to write to stderr: " e) out err)
    | (err, None) => packetLoop fuel data offset ec out err
    end
  else if byte_to_Z (packetId p) =? 3 then
    packetLoop fuel data offset
      (if 0 <? len (payload p) then byte_to_Z (index (payload p) 0) else ec)
      out err
  else
    Some (Returned 0
            (Errorf ParseError
               ("unknown packet ID: " +:+ decimal (byte_to_Z (packetId p))))
            out err).
Proof.
  intros Hwf. destruct (header_at pre p rest Hwf) as (Hid & Hlen & Hdata).
  pose proof (len_nonneg (payload p)). pose proof (len_nonneg rest).
  assert (Hall : len (pre ++ encode_packet p ++ rest)
                 = len pre + (5 + len (payload p)) + len rest)
    by (rewrite !len_app, len_encode_packet; lia).
  cbn [packetLoop]. cbv zeta.
  rewrite Hid, Hlen, Hdata, Hall.
  rewrite (proj2 (Z.ltb_lt (len pre) _)) by lia. cbn [negb].
  rewrite (proj2 (Z.ltb_ge _ (len pre + 5))) by lia.
  rewrite (proj2 (Z.ltb_ge _ (len pre + 5 + len (payload p)))) by lia.
  apply switch_id.
Qed.

(** The loop at the end of the data. *)
Lemma packetLoop_end (fuel : nat) (data : list byte) (ec : Z)
    (out : option W1) (err : option W2) :
  packetLoop (S fuel) data (len data) ec out err
  = Some (Left (len data) ec out err).
Proof.
  cbn [packetLoop]. rewrite Z.ltb_irrefl. reflexivity.
Qed.

(** The loop at the start of a trailing fragment. *)
Lemma packetLoop_truncated (fuel : nat) (pre tail : list byte) (ec : Z)
    (out : option W1) (err : option W2) :
  truncated tail ->
  packetLoop (S fuel) (pre ++ tail) (len pre) ec out err
  = Some (Left (len pre) ec (write_dropping out tail) err).
Proof.
  intros [Hne Hshort].
  assert (0 < len tail) by (destruct tail; [done | unfold len; simpl; lia]).
  assert (Hsf : slice_from (pre ++ tail) (len pre) = tail).
  { rewrite <- (Z.add_0_r (len pre)). apply slice_from_app. lia. }
  assert (Hsl : slice (pre ++ tail) (len pre + 1) (len pre + 5)
                = slice tail 1 5) by (apply slice_app; lia).
  cbn [packetLoop]. cbv zeta. rewrite len_app, !Hsf, !Hsl.
  rewrite (proj2 (Z.ltb_lt (len pre) _)) by lia. cbn [negb].
  destruct (Z.ltb_spec (len pre + len tail) (len pre + 5)) as [|Hge];
    [reflexivity|].
  rewrite (proj2 (Z.ltb_lt _ _)); [reflexivity | lia].
Qed.

End DecoderFacts.

(** ** What the packets of a stream amount to *)

Lemma payloads_of_cons (id : Z) (p : packet) (pkts : list packet) :
  payloads_of id (p :: pkts) =
  (if byte_to_Z (packetId p) =? id then payload p else [])
  ++ payloads_of id pkts.
Proof.
  unfold payloads_of. cbn [List.filter].
  destruct (byte_to_Z (packetId p) =? id); reflexivity.
Qed.

Lemma exit_status_cons (dflt : Z) (p : packet) (pkts : list packet) :
  exit_status dflt (p :: pkts) =
  exit_status
    (if carries_status p then byte_to_Z (index (payload p) 0) else dflt) pkts.
Proof.
  unfold exit_status. cbn [List.filter].
  destruct (carries_status p); [|reflexivity].
  rewrite last_cons. destruct (last (List.filter carries_status pkts));
    reflexivity.
Qed.

Lemma write_to_Buffer (w : option Buffer) (p : list byte) :
  write_to w p = ((fun b => b ++ p) <$> w, None).
Proof. destruct w; reflexivity. Qed.

Lemma append_nil (w : option Buffer) : (fun b => b ++ []) <$> w = w.
Proof. destruct w as [b|]; [simpl; rewrite app_nil_r|]; reflexivity. Qed.

Lemma append_append (w : option Buffer) (x y : list byte) :
  (fun b => b ++ y) <$> ((fun b => b ++ x) <$> w)
  = (fun b => b ++ (x ++ y)) <$> w.
Proof. destruct w as [b|]; [simpl; rewrite app_assoc|]; reflexivity. Qed.

(** Over buffers, the loop takes a run of whole packets with ids 1, 2 and 3
    off the stream, one per iteration, and leaves their payloads in the
    sinks and the last status in [exitCode]. *)
Lemma packetLoop_packets (pkts : list packet) :
  forall (fuel : nat) (pre tail : list byte) (ec : Z)
         (out err : option Buffer),
    Forall wf_packet pkts -> Forall known_id pkts ->
    packetLoop (length pkts + fuel) (pre ++ encode pkts ++ tail)
               (len pre) ec out err
    = packetLoop fuel (pre ++ encode pkts ++ tail)
        (len pre + len (encode pkts)) (exit_status ec pkts)
        ((fun b => b ++ payloads_of 1 pkts) <$> out)
        ((fun b => b ++ payloads_of 2 pkts) <$> err).
Proof.
  induction pkts as [|p pkts IH]; intros fuel pre tail ec out err Hwf Hid.
  - cbn [length Nat.add encode map concat app].
    change (len (@nil byte)) with 0. rewrite Z.add_0_r.
    change (payloads_of 1 []) with (@nil byte).
    change (payloads_of 2 []) with (@nil byte).
    rewrite !append_nil. reflexivity.
  - apply Forall_cons in Hwf as [Hp Hwf]. apply Forall_cons in Hid as [Hk Hid].
    rewrite encode_cons, <- !app_assoc.
    cbn [length Nat.add]. rewrite packetLoop_packet by exact Hp. cbv zeta.
    rewrite !write_to_Buffer.
    assert (Hoff : len pre + 5 + len (payload p) = len (pre ++ encode_packet p))
      by (rewrite len_app, len_encode_packet; lia).
    assert (Hend : len pre + len (encode_packet p ++ encode pkts)
                   = len (pre ++ encode_packet p) + len (encode pkts))
      by (rewrite !len_app; lia).
    rewrite Hoff, Hend, (app_assoc pre (encode_packet p)).
    rewrite !payloads_of_cons, exit_status_cons. unfold carries_status.
    destruct Hk as [Hk|[Hk|Hk]]; rewrite Hk; cbn [Z.eqb Pos.eqb andb app];
      rewrite IH by assumption; rewrite ?append_append; reflexivity.
Qed.

Section DecoderTotal.
Context {W1 W2 : Type} `{Writer W1, Writer W2}.

(** The loop ends: an iteration that goes on moves [offset] forward. *)
Lemma packetLoop_total (fuel : nat) :
  forall (data : list byte) (offset ec : Z)
         (out : option W1) (err : option W2),
    0 <= offset -> Z.max 0 (len data - offset) < Z.of_nat fuel ->
    is_Some (packetLoop fuel data offset ec out err).
Proof.
  induction fuel as [|fuel IH]; intros data offset ec out err Ho Hfuel;
    [lia|].
  cbn [packetLoop]. cbv zeta.
  destruct (Z.ltb_spec offset (len data)) as [Hlt|]; cbn [negb]; [|eauto].
  destruct (Z.ltb_spec (len data) (offset + 5)); [eauto|].
  set (dataLen := Uint32 (slice data (offset + 1) (offset + 5))).
  pose proof (Uint32_range (slice data (offset + 1) (offset + 5))) as Hr.
  fold dataLen in Hr.
  destruct (Z.ltb_spec (len data) (offset + 5 + dataLen)); [eauto|].
  assert (Hnext : forall ec' (out' : option W1) (err' : option W2),
    is_Some (packetLoop fuel data (offset + 5 + dataLen) ec' out' err'))
    by (intros; apply IH; lia).
  rewrite switch_id.
  destruct (_ =? 1).
  { destruct (write_to out _) as [? [?|]]; eauto. }
  destruct (_ =? 2).
  { destruct (write_to err _) as [? [?|]]; eauto. }
  destruct (_ =? 3); eauto.
Qed.

(** [DecodeV2Data] returns on every input, whatever the sinks do. *)
Lemma DecodeV2Data_total (data : list byte)
    (out : option W1) (err : option W2) :
  is_Some (DecodeV2Data data out err).
Proof.
  unfold DecodeV2Data.
  destruct (packetLoop_total (S (length data)) data 0 0 out err)
    as [r Hr]; [lia | unfold len; lia |].
  rewrite Hr. destruct r; eauto.
Qed.


End DecoderTotal.

(** ** The decoder on whole streams *)

(** C1, as amended.  For every stream that is a concatenation of whole
    packets whose ids are all 1, 2 or 3, [DecodeV2Data] returns no error,
    leaves the payloads of the id-1 packets, in order, in the stdout sink
    and those of the id-2 packets in the stderr sink, and returns the first
    payload byte of the last id-3 packet with a non-empty payload, or 0
    when there is none.  On the stream of scenario 3 this is stdout
    [hello], stderr [err] and exit code 42. *)
Theorem DecodeV2Data_packets (pkts : list packet) (out err : option Buffer) :
  Forall wf_packet pkts -> Forall known_id pkts ->
  DecodeV2Data (encode pkts) out err
  = Some (Decoded (exit_status 0 pkts) None
            ((fun b => b ++ payloads_of 1 pkts) <$> out)
            ((fun b => b ++ payloads_of 2 pkts) <$> err))
  /\ DecodeV2Data shell_v2_stream (Some []) (Some [])
     = Some (Decoded 42 None (Some (list_byte_of_string "hello"))
               (Some (list_byte_of_string "err"))).
Proof.
  intros Hwf Hid. split; [|reflexivity].
  unfold DecodeV2Data.
  pose proof (length_encode pkts) as Hlen.
  replace (S (length (encode pkts)))
    with (length pkts + S (length (encode pkts) - length pkts))%nat by lia.
  pose proof (packetLoop_packets pkts
                (S (length (encode pkts) - length pkts)) [] [] 0 out err
                Hwf Hid) as Hrun.
  cbn [app] in Hrun. rewrite app_nil_r in Hrun.
  change (len (@nil byte)) with 0 in Hrun. rewrite Z.add_0_l in Hrun.
  rewrite Hrun, packetLoop_end. reflexivity.
Qed.

Lemma DecodeV2Data_packets_witness :
  Forall wf_packet [Packet Byte.x01 [Byte.x68; Byte.x69]; Packet Byte.x03 [Byte.x07]]
  /\ Forall known_id [Packet Byte.x01 [Byte.x68; Byte.x69]; Packet Byte.x03 [Byte.x07]]
  /\ DecodeV2Data
       (encode [Packet Byte.x01 [Byte.x68; Byte.x69]; Packet Byte.x03 [Byte.x07]])
       (Some []) (Some [])
     = Some (Decoded 7 None (Some [Byte.x68; Byte.x69]) (Some [])).
Proof.
  assert (Hwf : Forall wf_packet
            [Packet Byte.x01 [Byte.x68; Byte.x69]; Packet Byte.x03 [Byte.x07]])
    by (repeat constructor).
  assert (Hid : Forall known_id
            [Packet Byte.x01 [Byte.x68; Byte.x69]; Packet Byte.x03 [Byte.x07]])
    by (repeat constructor; unfold known_id; simpl; lia).
  split; [exact Hwf | split; [exact Hid |]].
  exact (proj1 (DecodeV2Data_packets _ (Some []) (Some []) Hwf Hid)).
Defined.

(** C1, as stated, fails: a packet need not have one of the ids 1, 2, 3.
    The stream [04 00 00 00 00] is one whole packet with an empty payload,
    and the decoder returns an error on it. *)
Lemma DecodeV2Data_packets_counterexample :
  Forall wf_packet [Packet Byte.x04 []]
  /\ encode [Packet Byte.x04 []]
     = [Byte.x04; Byte.x00; Byte.x00; Byte.x00; Byte.x00]
  /\ DecodeV2Data [Byte.x04; Byte.x00; Byte.x00; Byte.x00; Byte.x00]
       (Some ([] : Buffer)) (Some ([] : Buffer))
     = Some (Decoded 0 (Some (Errorf ParseError "unknown packet ID: 4"))
               (Some []) (Some [])).
Proof.
  split; [repeat constructor | split; reflexivity].
Qed.

(** C3.  For every stream made of whole packets with ids 1, 2 and 3 and
    then a non-empty trailing fragment that is shorter than 5 bytes or whose
    header declares more payload than is left, [DecodeV2Data] returns no
    error and the stdout sink gets the payloads of the id-1 packets and
    then the whole fragment, header bytes included.  On [01 05 00 00 00 h i]
    the stdout sink gets these 7 bytes and the exit code is 0. *)
Theorem DecodeV2Data_truncated_tail (pkts : list packet) (tail : list byte)
    (out err : option Buffer) :
  Forall wf_packet pkts -> Forall known_id pkts -> truncated tail ->
  DecodeV2Data (encode pkts ++ tail) out err
  = Some (Decoded (exit_status 0 pkts) None
            ((fun b => b ++ payloads_of 1 pkts ++ tail) <$> out)
            ((fun b => b ++ payloads_of 2 pkts) <$> err))
  /\ DecodeV2Data shell_v2_truncated (Some []) (Some [])
     = Some (Decoded 0 None (Some shell_v2_truncated) (Some [])).
Proof.
  intros Hwf Hid Htail. split; [|reflexivity].
  unfold DecodeV2Data.
  assert (Hlen : (length pkts <= length (encode pkts ++ tail))%nat)
    by (rewrite length_app; pose proof (length_encode pkts); lia).
  replace (S (length (encode pkts ++ tail)))
    with (length pkts + S (length (encode pkts ++ tail) - length pkts))%nat
    by lia.
  pose proof (packetLoop_packets pkts
                (S (length (encode pkts ++ tail) - length pkts)) [] tail 0
                out err Hwf Hid) as Hrun.
  cbn [app] in Hrun.
  change (len (@nil byte)) with 0 in Hrun. rewrite Z.add_0_l in Hrun.
  rewrite Hrun, (packetLoop_truncated _ (encode pkts) tail) by exact Htail.
  unfold write_dropping. rewrite write_to_Buffer. cbn [fst].
  rewrite append_append. reflexivity.
Qed.

Lemma DecodeV2Data_truncated_tail_witness :
  Forall wf_packet [Packet Byte.x02 [Byte.x65]]
  /\ Forall known_id [Packet Byte.x02 [Byte.x65]]
  /\ truncated [Byte.x01; Byte.x05; Byte.x00]
  /\ DecodeV2Data
       (encode [Packet Byte.x02 [Byte.x65]] ++ [Byte.x01; Byte.x05; Byte.x00])
       (Some []) (Some [])
     = Some (Decoded 0 None (Some [Byte.x01; Byte.x05; Byte.x00])
               (Some [Byte.x65])).
Proof.
  assert (Hwf : Forall wf_packet [Packet Byte.x02 [Byte.x65]])
    by (repeat constructor).
  assert (Hid : Forall known_id [Packet Byte.x02 [Byte.x65]])
    by (repeat constructor; unfold known_id; simpl; lia).
  assert (Htail : truncated [Byte.x01; Byte.x05; Byte.x00])
    by (split; [discriminate | left; unfold len; simpl; lia]).
  split; [exact Hwf | split; [exact Hid | split; [exact Htail |]]].
  exact (proj1 (DecodeV2Data_truncated_tail _ _ (Some []) (Some [])
                  Hwf Hid Htail)).
Defined.



(** C2 fails on the code.  [offset] is declared before the read loop of
    [DecodeDataFromReader] and is not set back to 0 for the bytes of the
    next read: two packets delivered by two reads are not decoded as the
    same two packets in one slice are.  The second packet starts at
    position 0 of the second read, but the loop looks for it at position 6,
    where the first read ended, and finds nothing. *)
Theorem DecodeDataFromReader_depends_on_reads (fuel : nat) :
  let a := [Byte.x01; Byte.x01; Byte.x00; Byte.x00; Byte.x00; Byte.x61] in
  let b := [Byte.x01; Byte.x01; Byte.x00; Byte.x00; Byte.x00; Byte.x62] in
  DecodeV2Data (a ++ b) (Some ([] : Buffer)) (Some ([] : Buffer))
  = Some (Decoded 0 None (Some [Byte.x61; Byte.x62]) (Some []))
  /\ DecodeDataFromReader (3 + fuel) ([a; b] : Chunks)
       (Some ([] : Buffer)) (Some ([] : Buffer))
     = Some (Decoded 0 None (Some [Byte.x61]) (Some []))
  /\ DecodeDataFromReader (2 + fuel) ([a ++ b] : Chunks)
       (Some ([] : Buffer)) (Some ([] : Buffer))
     = Some (Decoded 0 None (Some [Byte.x61; Byte.x62]) (Some [])).
Proof.
  repeat split; reflexivity.
Qed.

(** ** Matching by derivatives is matching *)

Lemma Lang_Void_inv (s : list ascii) : Lang Void s -> False.
Proof. inversion 1. Qed.

Lemma Lang_Eps_inv (s : list ascii) : Lang Eps s -> s = [].
Proof. by inversion 1. Qed.

Lemma Lang_Lit_inv (c : ascii) (s : list ascii) : Lang (Lit c) s -> s = [c].
Proof. by inversion 1. Qed.

Lemma Lang_Dot_inv (s : list ascii) :
  Lang Dot s -> exists c, s = [c] /\ c <> newline.
Proof. inversion 1; subst; eauto. Qed.

Lemma Lang_Cat_inv (r1 r2 : regex) (s : list ascii) :
  Lang (Cat r1 r2) s ->
  exists s1 s2, s = s1 ++ s2 /\ Lang r1 s1 /\ Lang r2 s2.
Proof. inversion 1; subst; eauto. Qed.

Lemma Lang_Alt_inv (r1 r2 : regex) (s : list ascii) :
  Lang (Alt r1 r2) s -> Lang r1 s \/ Lang r2 s.
Proof. inversion 1; subst; eauto. Qed.

Lemma nullable_Lang (r : regex) : nullable r = true <-> Lang r [].
Proof.
  induction r as [| | c | |r1 IH1 r2 IH2|r1 IH1 r2 IH2|r IH]; cbn [nullable].
  - split; [discriminate | intros HL; destruct (Lang_Void_inv _ HL)].
  - split; [constructor | reflexivity].
  - split; [discriminate | intros HL; apply Lang_Lit_inv in HL; discriminate].
  - split; [discriminate|].
    intros HL; apply Lang_Dot_inv in HL as (c & E & _); discriminate.
  - rewrite andb_true_iff, IH1, IH2. split.
    + intros [H1 H2]. apply (Lang_Cat r1 r2 [] [] H1 H2).
    + intros HL. apply Lang_Cat_inv in HL as (s1 & s2 & E & H1 & H2).
      symmetry in E. apply app_eq_nil in E as [-> ->]. split; assumption.
  - rewrite orb_true_iff, IH1, IH2. split.
    + intros [H1|H2]; [apply Lang_Alt_l | apply Lang_Alt_r]; assumption.
    + apply Lang_Alt_inv.
  - split; [constructor | reflexivity].
Qed.

(** A non-empty word of [r*] starts with a non-empty word of [r]. *)
Lemma Lang_Star_cons (r : regex) (c : ascii) (s : list ascii) :
  Lang (Star r) (c :: s) ->
  exists s1 s2, s = s1 ++ s2 /\ Lang r (c :: s1) /\ Lang (Star r) s2.
Proof.
  intros HL. remember (Star r) as r' eqn:Er. remember (c :: s) as w eqn:Ew.
  revert Er Ew.
  induction HL as [| | | | | | |r0 s1 s2 H1 _ H2 IH2]; intros Er Ew;
    try discriminate.
  inversion Er; subst r0.
  destruct s1 as [|c1 s1].
  - apply IH2; [reflexivity | exact Ew].
  - cbn [app] in Ew. inversion Ew; subst c1 s.
    exists s1, s2. repeat split; assumption.
Qed.

Lemma deriv_Lang (r : regex) :
  forall (c : ascii) (s : list ascii), Lang (deriv c r) s <-> Lang r (c :: s).
Proof.
  induction r as [| | d | |r1 IH1 r2 IH2|r1 IH1 r2 IH2|r IH]; intros c s;
    cbn [deriv].
  - split; intros HL; destruct (Lang_Void_inv _ HL).
  - split; intros HL; [destruct (Lang_Void_inv _ HL)|].
    apply Lang_Eps_inv in HL. discriminate.
  - destruct (Ascii.eqb_spec c d) as [->|Hne]; split; intros HL.
    + apply Lang_Eps_inv in HL as ->. constructor.
    + apply Lang_Lit_inv in HL. inversion HL. constructor.
    + destruct (Lang_Void_inv _ HL).
    + apply Lang_Lit_inv in HL. congruence.
  - destruct (Ascii.eqb_spec c newline) as [->|Hne]; split; intros HL.
    + destruct (Lang_Void_inv _ HL).
    + apply Lang_Dot_inv in HL as (c & E & Hc). congruence.
    + apply Lang_Eps_inv in HL as ->. by constructor.
    + apply Lang_Dot_inv in HL as (c' & E & Hc). inversion E. constructor.
  - assert (Hcat : Lang (Cat (deriv c r1) r2) s ->
                   Lang (Cat r1 r2) (c :: s)).
    { intros HL. apply Lang_Cat_inv in HL as (s1 & s2 & -> & H1 & H2).
      apply IH1 in H1. apply (Lang_Cat r1 r2 (c :: s1) s2 H1 H2). }
    assert (Hinv : Lang (Cat r1 r2) (c :: s) ->
                   Lang (Cat (deriv c r1) r2) s \/
                   (Lang r1 [] /\ Lang (deriv c r2) s)).
    { intros HL. apply Lang_Cat_inv in HL as (s1 & s2 & E & H1 & H2).
      destruct s1 as [|c1 s1]; cbn [app] in E.
      - subst s2. right. split; [exact H1 | by apply IH2].
      - inversion E; subst. left.
        apply Lang_Cat; [by apply IH1 | exact H2]. }
    destruct (nullable r1) eqn:Hn; split.
    + intros HL. apply Lang_Alt_inv in HL as [HL|HL]; [by apply Hcat|].
      apply nullable_Lang in Hn.
      apply (Lang_Cat r1 r2 [] (c :: s) Hn). by apply IH2.
    + intros HL. destruct (Hinv HL) as [Hl|[_ Hr]];
        [by apply Lang_Alt_l | by apply Lang_Alt_r].
    + exact Hcat.
    + intros HL. destruct (Hinv HL) as [Hl|[Hnil _]]; [exact Hl|].
      apply nullable_Lang in Hnil. congruence.
  - split; intros HL; apply Lang_Alt_inv in HL as [HL|HL];
      (apply Lang_Alt_l; by apply IH1) || (apply Lang_Alt_r; by apply IH2).
  - split.
    + intros HL. apply Lang_Cat_inv in HL as (s1 & s2 & -> & H1 & H2).
      apply IH in H1. apply (Lang_Star_app r (c :: s1) s2 H1 H2).
    + intros HL. apply Lang_Star_cons in HL as (s1 & s2 & -> & H1 & H2).
      apply Lang_Cat; [by apply IH | exact H2].
Qed.

Lemma match_prefix_spec (s : list ascii) :
  forall r : regex,
    match_prefix r s = true <-> exists s1 s2, s = s1 ++ s2 /\ Lang r s1.
Proof.
  induction s as [|c s IH]; intros r; cbn [match_prefix];
    rewrite orb_true_iff, nullable_Lang.
  - split.
    + intros [Hn|Hf]; [|discriminate]. by exists [], [].
    + intros (s1 & s2 & E & HL). symmetry in E.
      apply app_eq_nil in E as [-> ->]. by left.
  - rewrite IH. split.
    + intros [Hn|(s1 & s2 & -> & HL)].
      * by exists [], (c :: s).
      * exists (c :: s1), s2. split; [reflexivity | by apply deriv_Lang].
    + intros (s1 & s2 & E & HL). destruct s1 as [|c1 s1]; [by left|].
      cbn [app] in E. inversion E; subst. right.
      exists s1, s2. split; [reflexivity | by apply deriv_Lang].
Qed.

Lemma match_anywhere_spec (re : regex) (s : list ascii) :
  match_anywhere re s = true <->
  exists pre mid post, s = pre ++ mid ++ post /\ Lang re mid.
Proof.
  induction s as [|c s IH]; cbn [match_anywhere];
    rewrite orb_true_iff, match_prefix_spec.
  - split.
    + intros [(s1 & s2 & E & HL)|Hf]; [|discriminate].
      by exists [], s1, s2.
    + intros (pre & mid & post & E & HL). left.
      symmetry in E. apply app_eq_nil in E as [-> E].
      by exists mid, post.
  - rewrite IH. split.
    + intros [(s1 & s2 & E & HL)|(pre & mid & post & -> & HL)].
      * by exists [], s1, s2.
      * by exists (c :: pre), mid, post.
    + intros (pre & mid & post & E & HL). destruct pre as [|c1 pre].
      * left. by exists mid, post.
      * cbn [app] in E. inversion E; subst. right. by exists pre, mid, post.
Qed.

(** ** The device-not-found pattern *)

Lemma Lang_Str (w : string) (s : list ascii) :
  Lang (Str w) s <-> s = chars w.
Proof.
  revert s. induction w as [|c w IH]; intros s; cbn [Str chars
    list_ascii_of_string].
  - split; [apply Lang_Eps_inv | intros ->; constructor].
  - split.
    + intros HL. apply Lang_Cat_inv in HL as (s1 & s2 & -> & H1 & H2).
      apply Lang_Lit_inv in H1 as ->. apply IH in H2 as ->. reflexivity.
    + intros ->. apply (Lang_Cat (Lit c) (Str w) [c]); [constructor|].
      by apply IH.
Qed.

Lemma Lang_Star_Dot (s : list ascii) :
  Lang (Star Dot) s <-> Forall (fun c => c <> newline) s.
Proof.
  split.
  - intros HL. remember (Star Dot) as r eqn:Er. revert Er.
    induction HL as [| | | | | | |r0 s1 s2 H1 _ H2 IH2]; intros Er;
      try discriminate.
    + constructor.
    + inversion Er; subst r0. apply Lang_Dot_inv in H1 as (c & -> & Hc).
      constructor; [exact Hc | by apply IH2].
  - induction 1 as [|c s Hc _ IH]; [constructor|].
    apply (Lang_Star_app Dot [c] s); [by constructor | exact IH].
Qed.

(** The words of [device( '.*')? not found]. *)
Lemma deviceNotFoundMessagePattern_Lang (mid : list ascii) :
  Lang deviceNotFoundMessagePattern mid <->
  mid = chars "device not found" \/
  exists x, Forall (fun c => c <> newline) x /\
            mid = chars "device '" ++ x ++ chars "' not found".
Proof.
  unfold deviceNotFoundMessagePattern, Opt. split.
  - intros HL. apply Lang_Cat_inv in HL as (s1 & s2 & -> & H1 & H2).
    apply Lang_Str in H1 as ->.
    apply Lang_Cat_inv in H2 as (s3 & s4 & -> & H3 & H4).
    apply Lang_Str in H4 as ->.
    apply Lang_Alt_inv in H3 as [H3|H3].
    + right. apply Lang_Cat_inv in H3 as (a & b & -> & Ha & Hb).
      apply Lang_Str in Ha as ->.
      apply Lang_Cat_inv in Hb as (x & q & -> & Hx & Hq).
      apply Lang_Str in Hq as ->. apply Lang_Star_Dot in Hx.
      exists x. split; [exact Hx|].
      cbn [chars list_ascii_of_string app]. rewrite <- !app_assoc.
      reflexivity.
    + left. apply Lang_Eps_inv in H3 as ->. reflexivity.
  - intros [->|(x & Hx & ->)].
    + apply (Lang_Cat _ _ (chars "device") (chars " not found"));
        [by apply Lang_Str|].
      apply (Lang_Cat _ _ [] (chars " not found")); [|by apply Lang_Str].
      apply Lang_Alt_r. constructor.
    + replace (chars "device '" ++ x ++ chars "' not found")
        with (chars "device"
              ++ (chars " '" ++ x ++ chars "'") ++ chars " not found")
        by (cbn [chars list_ascii_of_string app]; rewrite <- !app_assoc;
            reflexivity).
      apply Lang_Cat; [by apply Lang_Str|].
      apply Lang_Cat; [|by apply Lang_Str].
      apply Lang_Alt_l. apply Lang_Cat; [by apply Lang_Str|].
      apply Lang_Cat; [by apply Lang_Star_Dot | by apply Lang_Str].
Qed.

Lemma MatchString_spec (re : regex) (s : string) :
  MatchString re s = true <->
  exists pre mid post, chars s = pre ++ mid ++ post /\ Lang re mid.
Proof. apply match_anywhere_spec. Qed.

(** C5.  The error that [adbServerError] builds from the body of a FAIL has
    the kind [DeviceNotFound] exactly when some part of the server's
    message is [device not found], or [device '], bytes with no line feed
    among them, and [' not found]; these are the words of the regular
    expression [device( '.*')? not found], in which [.] is any byte but
    the line feed.  It has the kind [AdbError] for every other message; in
    both cases its details hold the request and the server's message as
    they came. *)
Theorem adbServerError_classification (request serverMsg : string) :
  (Code (adbServerError request serverMsg) = Some DeviceNotFound <->
   exists pre mid post : list ascii,
     list_ascii_of_string serverMsg = pre ++ mid ++ post /\
     (mid = list_ascii_of_string "device not found" \/
      exists x : list ascii,
        Forall (fun c => c <> "010"%char) x /\
        mid = list_ascii_of_string "device '" ++ x
              ++ list_ascii_of_string "' not found"))
  /\ (forall mid : list ascii,
        Lang (Cat (Str "device")
                (Cat (Alt (Cat (Str " '") (Cat (Star Dot) (Str "'"))) Eps)
                     (Str " not found"))) mid <->
        mid = list_ascii_of_string "device not found" \/
        exists x : list ascii,
          Forall (fun c => c <> "010"%char) x /\
          mid = list_ascii_of_string "device '" ++ x
                ++ list_ascii_of_string "' not found")
  /\ (Code (adbServerError request serverMsg) = Some DeviceNotFound \/
      Code (adbServerError request serverMsg) = Some AdbError)
  /\ Details (adbServerError request serverMsg)
     = ErrorResponseDetails request serverMsg.
Proof.
  split; [|split; [exact deviceNotFoundMessagePattern_Lang|]].
  - unfold adbServerError. cbn [Code].
    destruct (MatchString deviceNotFoundMessagePattern serverMsg) eqn:Hm.
    + split; [intros _ | reflexivity].
      apply MatchString_spec in Hm as (pre & mid & post & E & HL).
      apply deviceNotFoundMessagePattern_Lang in HL.
      by exists pre, mid, post.
    + split; [discriminate|]. intros (pre & mid & post & E & Hmid).
      assert (Hyes : MatchString deviceNotFoundMessagePattern serverMsg
                     = true); [|congruence].
      apply MatchString_spec. exists pre, mid, post. split; [exact E|].
      by apply deviceNotFoundMessagePattern_Lang.
  - unfold adbServerError. cbn [Code Details].
    destruct (MatchString deviceNotFoundMessagePattern serverMsg); auto.
Qed.

(** Scenario 6 of section 8, and a message of the other kind. *)
Example adbServerError_not_found :
  adbServerError "host:transport:xyz" "device 'xyz' not found"
  = Err DeviceNotFound
      "server error for host:transport:xyz request: device 'xyz' not found"
      (ErrorResponseDetails "host:transport:xyz" "device 'xyz' not found")
      None.
Proof. reflexivity. Qed.

Example adbServerError_other :
  adbServerError "" "device offline"
  = Err AdbError "server error: device offline"
      (ErrorResponseDetails "" "device offline") None.
Proof. reflexivity. Qed.

(** ** The diff of two snapshots *)

Module WatcherFacts.
Import Watcher.

Lemma old_event_Some (new : gmap string DeviceState)
    (entry : string * DeviceState) (e : DeviceStateChangedEvent) :
  old_event new entry = Some e <->
  Serial e = entry.1 /\ OldState e = entry.2 /\
  (new !! entry.1 = None /\ NewState e = StateDisconnected \/
   new !! entry.1 = Some (NewState e) /\ OldState e <> NewState e).
Proof.
  destruct entry as [serial oldState], e as [s o n].
  unfold old_event. cbn [Serial OldState NewState fst snd].
  destruct (new !! serial) as [newState|].
  - destruct (decide (oldState = newState)) as [->|Hne].
    + split; [discriminate|]. intros (-> & -> & [[? _]|[E Hne]]);
        [discriminate | congruence].
    + split.
      * intros E. inversion E; subst. repeat split. by right.
      * intros (-> & -> & [[? _]|[E _]]); [discriminate|]. congruence.
  - split.
    + intros E. inversion E; subst. repeat split. by left.
    + intros (-> & -> & [[_ ->]|[? _]]); [reflexivity | discriminate].
Qed.

Lemma new_event_Some (old : gmap string DeviceState)
    (entry : string * DeviceState) (e : DeviceStateChangedEvent) :
  new_event old entry = Some e <->
  Serial e = entry.1 /\ NewState e = entry.2 /\
  old !! entry.1 = None /\ OldState e = StateDisconnected.
Proof.
  destruct entry as [serial newState], e as [s o n].
  unfold new_event. cbn [Serial OldState NewState fst snd].
  destruct (old !! serial) as [oldState|].
  - split; [discriminate | intros (_ & _ & ? & _); discriminate].
  - split.
    + intros E. inversion E; subst. by repeat split.
    + intros (-> & -> & _ & ->). reflexivity.
Qed.

(** The events drawn from the entries of a snapshot keep the order of the
    entries and their serials. *)
Lemma serials_sublist (f : string * DeviceState ->
                           option DeviceStateChangedEvent)
    (l : list (string * DeviceState)) :
  (forall x e, f x = Some e -> Serial e = x.1) ->
  sublist (Serial <$> omap f l) (l.*1).
Proof.
  intros Hf. induction l as [|x l IH]; cbn [omap list_omap fmap list_fmap].
  - constructor.
  - destruct (f x) as [e|] eqn:E.
    + cbn [fmap list_fmap]. rewrite (Hf x e E). by constructor.
    + by constructor.
Qed.

Lemma events_NoDup (f : string * DeviceState ->
                        option DeviceStateChangedEvent)
    (m : gmap string DeviceState) :
  (forall x e, f x = Some e -> Serial e = x.1) ->
  NoDup (omap f (map_to_list m)).
Proof.
  intros Hf. apply (NoDup_fmap_1 Serial).
  apply (sublist_NoDup _ ((map_to_list m).*1)).
  - apply NoDup_fst_map_to_list.
  - by apply serials_sublist.
Qed.

Lemma omap_None {A B} (f : A -> option B) (l : list A) :
  (forall x, x ∈ l -> f x = None) -> omap f l = [].
Proof.
  induction l as [|x l IH]; intros Hf; [reflexivity|].
  cbn [omap list_omap]. rewrite (Hf x) by constructor.
  apply IH. intros y Hy. apply Hf. by constructor.
Qed.

(** C4.  An event is in the diff of [old] and [new] exactly when it is
    [{serial, Disconnected, new[serial]}] for a serial in [new] but not in
    [old], or [{serial, old[serial], Disconnected}] for a serial in [old]
    but not in [new], or [{serial, old[s], new[s]}] for a serial in both
    with [old[s] != new[s]]; no event is there twice.  So the diff of a
    snapshot with itself is empty, and the diff of scenario 2 is the three
    events given there. *)
Theorem calculateStateDiffs_spec (old new : gmap string DeviceState) :
  (forall e : DeviceStateChangedEvent,
     e ∈ calculateStateDiffs old new <->
     (old !! Serial e = None /\ new !! Serial e = Some (NewState e) /\
      OldState e = StateDisconnected) \/
     (old !! Serial e = Some (OldState e) /\ new !! Serial e = None /\
      NewState e = StateDisconnected) \/
     (old !! Serial e = Some (OldState e) /\
      new !! Serial e = Some (NewState e) /\ OldState e <> NewState e))
  /\ NoDup (calculateStateDiffs old new)
  /\ calculateStateDiffs old old = []
  /\ calculateStateDiffs
       {[ "1" := StateOffline; "2" := StateOffline ]}
       {[ "1" := StateOnline; "3" := StateOffline ]}
     ≡ₚ [ Event "1" StateOffline StateOnline;
          Event "2" StateOffline StateDisconnected;
          Event "3" StateDisconnected StateOffline ].
Proof.
  assert (Hmem : forall e : DeviceStateChangedEvent,
     e ∈ calculateStateDiffs old new <->
     (old !! Serial e = None /\ new !! Serial e = Some (NewState e) /\
      OldState e = StateDisconnected) \/
     (old !! Serial e = Some (OldState e) /\ new !! Serial e = None /\
      NewState e = StateDisconnected) \/
     (old !! Serial e = Some (OldState e) /\
      new !! Serial e = Some (NewState e) /\ OldState e <> NewState e)).
  { intros e. unfold calculateStateDiffs.
    rewrite elem_of_app, !list_elem_of_omap. split.
    - intros [([s o] & Hin & He)|([s n] & Hin & He)].
      + apply elem_of_map_to_list in Hin.
        apply old_event_Some in He as (Hs & Ho & Hcase).
        cbn [fst snd] in *. subst s o.
        destruct Hcase as [[Hn Hd]|[Hn Hne]]; [right; left | right; right];
          by repeat split.
      + apply elem_of_map_to_list in Hin.
        apply new_event_Some in He as (Hs & Hn & Ho & Hd).
        cbn [fst snd] in *. subst s n. left. by repeat split.
    - intros [(Ho & Hn & Hd)|[(Ho & Hn & Hd)|(Ho & Hn & Hne)]].
      + right. exists (Serial e, NewState e). split.
        * by apply elem_of_map_to_list.
        * apply new_event_Some. by repeat split.
      + left. exists (Serial e, OldState e). split.
        * by apply elem_of_map_to_list.
        * apply old_event_Some. repeat split. by left.
      + left. exists (Serial e, OldState e). split.
        * by apply elem_of_map_to_list.
        * apply old_event_Some. repeat split. by right. }
  split; [exact Hmem|]. split; [|split].
  - unfold calculateStateDiffs. apply NoDup_app. split; [|split].
    + apply events_NoDup. intros x e He.
      by apply old_event_Some in He as (Hs & _).
    + intros e Hl Hr. apply list_elem_of_omap in Hl as ([s o] & Hin & He).
      apply list_elem_of_omap in Hr as ([s' n] & Hin' & He').
      apply elem_of_map_to_list in Hin.
      apply old_event_Some in He as (Hs & _).
      apply new_event_Some in He' as (Hs' & _ & Hnone & _).
      cbn [fst snd] in *. congruence.
    + apply events_NoDup. intros x e He.
      by apply new_event_Some in He as (Hs & _).
  - unfold calculateStateDiffs.
    rewrite !omap_None; [reflexivity | |].
    + intros [s n] Hin. apply elem_of_map_to_list in Hin.
      unfold new_event. by rewrite Hin.
    + intros [s o] Hin. apply elem_of_map_to_list in Hin.
      unfold old_event. rewrite Hin. by rewrite decide_True.
  - assert (E : calculateStateDiffs
                  {[ "1" := StateOffline; "2" := StateOffline ]}
                  {[ "1" := StateOnline; "3" := StateOffline ]}
                = [ Event "1" StateOffline StateOnline;
                    Event "2" StateOffline StateDisconnected;
                    Event "3" StateDisconnected StateOffline ])
      by (vm_compute; reflexivity).
    by rewrite E.
Qed.

End WatcherFacts.

(** ** Strings *)

Lemma ContainsRune_spec (s : string) (r : ascii) :
  ContainsRune s r = true <-> r ∈ chars s.
Proof.
  induction s as [|c s IH]; cbn [ContainsRune chars list_ascii_of_string].
  - split; [discriminate | by intros ?%elem_of_nil].
  - fold (chars s). rewrite orb_true_iff, IH, elem_of_cons.
    destruct (Ascii.eqb_spec c r) as [->|Hne]; split; auto.
    + intros [?|?]; [discriminate | by right].
    + intros [?|?]; [congruence | by right].
Qed.

Lemma containsWhitespace_spec (s : string) :
  containsWhitespace s = true <-> exists c, c ∈ chars s /\ is_space c = true.
Proof.
  induction s as [|c s IH];
    cbn [containsWhitespace chars list_ascii_of_string].
  - split; [discriminate | by intros (c & ?%elem_of_nil & _)].
  - fold (chars s). rewrite orb_true_iff, IH. split.
    + intros [Hc|(d & Hd & Hs)].
      * exists c. split; [by left | exact Hc].
      * exists d. split; [by right | exact Hs].
    + intros (d & [->|Hd]%elem_of_cons & Hs); [by left|].
      right. by exists d.
Qed.

Lemma HasPrefix_spec (prefix s : string) :
  HasPrefix s prefix = true <-> exists post, s = prefix +:+ post.
Proof.
  revert s. induction prefix as [|p prefix IH]; intros s.
  - destruct s; cbn [HasPrefix]; split; eauto.
  - destruct s as [|c s]; cbn [HasPrefix].
    + split; [discriminate | intros (post & E); discriminate].
    + rewrite andb_true_iff, IH. split.
      * intros [Hc (post & ->)]. apply Ascii.eqb_eq in Hc as ->.
        by exists post.
      * intros (post & E). inversion E; subst.
        split; [apply Ascii.eqb_refl | by exists post].
Qed.

Lemma Contains_spec (s substr : string) :
  Contains s substr = true <->
  exists pre post, s = pre +:+ substr +:+ post.
Proof.
  induction s as [|c s IH]; cbn [Contains];
    rewrite orb_true_iff, HasPrefix_spec.
  - split.
    + intros [(post & E)|Hf]; [|discriminate]. by exists EmptyString, post.
    + intros (pre & post & E). left. destruct pre; [|discriminate].
      by exists post.
  - rewrite IH. split.
    + intros [(post & E)|(pre & post & ->)].
      * by exists EmptyString, post.
      * by exists (String c pre), post.
    + intros (pre & post & E). destruct pre as [|c' pre].
      * left. by exists post.
      * inversion E; subst. right. by exists pre, post.
Qed.

Lemma append_assoc' (a b c : string) : (a +:+ b) +:+ c = a +:+ (b +:+ c).
Proof.
  induction a as [|x a IH]; [reflexivity|].
  change (String x ((a +:+ b) +:+ c) = String x (a +:+ (b +:+ c))).
  by f_equal.
Qed.

Lemma append_empty_r (a : string) : a +:+ EmptyString = a.
Proof.
  induction a as [|x a IH]; [reflexivity|].
  change (String x (a +:+ EmptyString) = String x a). by f_equal.
Qed.

Lemma is_space_spec (c : ascii) :
  is_space c = true <->
  nat_of_ascii c = 32%nat \/ (9 <= nat_of_ascii c <= 13)%nat.
Proof.
  unfold is_space. rewrite orb_true_iff, andb_true_iff.
  rewrite Nat.eqb_eq, !Nat.leb_le. tauto.
Qed.

Lemma isBlank_spec (s : string) :
  isBlank s = true <->
  Forall (fun c => nat_of_ascii c = 32%nat \/ (9 <= nat_of_ascii c <= 13)%nat)
    (chars s).
Proof.
  induction s as [|c s IH]; cbn [isBlank chars list_ascii_of_string].
  - split; [constructor | reflexivity].
  - fold (chars s). rewrite andb_true_iff, Forall_cons, IH, is_space_spec.
    reflexivity.
Qed.

Lemma containsWhitespace_Exists (s : string) :
  containsWhitespace s = true <->
  Exists (fun c => nat_of_ascii c = 32%nat \/ (9 <= nat_of_ascii c <= 13)%nat)
    (chars s).
Proof.
  induction s as [|c s IH];
    cbn [containsWhitespace chars list_ascii_of_string].
  - split; [discriminate | by intros ?%Exists_nil].
  - fold (chars s). rewrite orb_true_iff, Exists_cons, IH, is_space_spec.
    reflexivity.
Qed.

(** ** The command line *)

Lemma Join_cons (cmd : string) (args : list string) :
  Join (cmd :: args) " " =
  if 0 <? len args then cmd +:+ " " +:+ Join args " " else cmd.
Proof. destruct args; reflexivity. Qed.

Lemma quoteArgs_clean (args : list string) :
  forall i : Z,
    Forall (fun arg => ContainsRune arg dquote = false) args ->
    quoteArgs i args = inl (map quoted args).
Proof.
  induction args as [|arg args IH]; intros i Hall; [reflexivity|].
  apply Forall_cons in Hall as [Harg Hall].
  cbn [quoteArgs map]. rewrite Harg, (IH _ Hall). reflexivity.
Qed.

Lemma quoteArgs_quote (args : list string) :
  forall i : Z,
    Exists (fun arg => ContainsRune arg dquote = true) args ->
    exists (k : nat) (arg : string),
      args !! k = Some arg /\ ContainsRune arg dquote = true /\
      (forall (j : nat) (a : string),
         (j < k)%nat -> args !! j = Some a -> ContainsRune a dquote = false) /\
      quoteArgs i args
      = inr (Errorf ParseError
               ("arg at index " +:+ decimal (i + Z.of_nat k) +:+
                " contains an invalid double quote: " +:+ arg)).
Proof.
  induction args as [|arg args IH]; intros i Hex;
    [by apply Exists_nil in Hex|].
  cbn [quoteArgs]. destruct (ContainsRune arg dquote) eqn:Harg.
  - exists 0%nat, arg. rewrite Z.add_0_r. repeat split; try done.
    intros j a Hj. lia.
  - apply Exists_cons in Hex as [Hex|Hex]; [congruence|].
    destruct (IH (i + 1) Hex) as (k & a & Hk & Ha & Hfirst & ->).
    exists (S k), a. repeat split; try done.
    + intros [|j] b Hj Hb.
      * cbn in Hb. congruence.
      * cbn in Hb. apply (Hfirst j b); [lia | exact Hb].
    + replace (i + Z.of_nat (S k)) with (i + 1 + Z.of_nat k) by lia.
      reflexivity.
Qed.

Lemma Join_spaces (a : string) (l : list string) :
  Join (a :: l) " "
  = a +:+ foldr (fun x acc => " " +:+ x +:+ acc) EmptyString l.
Proof.
  revert a. induction l as [|b l IH]; intros a.
  - cbn [Join foldr]. by rewrite append_empty_r.
  - change (Join (a :: b :: l) " ") with (a +:+ " " +:+ Join (b :: l) " ").
    rewrite IH. reflexivity.
Qed.

(** What the loop leaves of each argument, said without the loop: an
    argument with ASCII whitespace in it between two double quotes, any
    other argument as it is. *)
Lemma quoted_args (args : list string) :
  Forall2
    (fun arg arg' =>
       (Exists (fun c => nat_of_ascii c = 32%nat \/
                         (9 <= nat_of_ascii c <= 13)%nat)
               (list_ascii_of_string arg) /\
        arg' = String "034" (arg +:+ String "034" EmptyString)) \/
       (~ Exists (fun c => nat_of_ascii c = 32%nat \/
                           (9 <= nat_of_ascii c <= 13)%nat)
                 (list_ascii_of_string arg) /\
        arg' = arg))
    args (map quoted args).
Proof.
  induction args as [|arg args IH]; cbn [map]; constructor; [|exact IH].
  unfold quoted. destruct (containsWhitespace arg) eqn:Hws.
  - left. split; [by apply containsWhitespace_Exists | reflexivity].
  - right. split; [|reflexivity].
    intros Hex. apply containsWhitespace_Exists in Hex. congruence.
Qed.

(** C8, as amended.  A blank command (nothing but ASCII whitespace in it,
    or nothing at all) gives an [AssertionError], whatever the arguments.
    For a command that is not blank: when some argument has a double quote
    in it, the result is a [ParseError] that names the index of the first
    such argument, and the argument; when none has, the result is the
    command followed by the arguments, a single space before each, every
    argument with ASCII whitespace in it between two double quotes and
    every other argument as it is. *)
Theorem prepareCommandLine_spec (cmd : string) (args : list string) :
  (Forall (fun c => nat_of_ascii c = 32%nat \/
                    (9 <= nat_of_ascii c <= 13)%nat)
          (list_ascii_of_string cmd) ->
   prepareCommandLine cmd args
   = (EmptyString,
      Some (Err AssertionError "command cannot be empty" NoDetails None)))
  /\ (~ Forall (fun c => nat_of_ascii c = 32%nat \/
                         (9 <= nat_of_ascii c <= 13)%nat)
               (list_ascii_of_string cmd) ->
      (exists arg, arg ∈ args /\ "034"%char ∈ list_ascii_of_string arg) ->
      exists (k : nat) (arg : string),
        args !! k = Some arg /\ "034"%char ∈ list_ascii_of_string arg /\
        (forall (j : nat) (a : string),
           (j < k)%nat -> args !! j = Some a ->
           "034"%char ∉ list_ascii_of_string a) /\
        prepareCommandLine cmd args
        = (EmptyString,
           Some (Err ParseError
                   ("arg at index "
                    +:+ NilZero.string_of_uint (N.to_uint (N.of_nat k))
                    +:+ " contains an invalid double quote: " +:+ arg)
                   NoDetails None)))
  /\ (~ Forall (fun c => nat_of_ascii c = 32%nat \/
                         (9 <= nat_of_ascii c <= 13)%nat)
               (list_ascii_of_string cmd) ->
      (forall arg, arg ∈ args -> "034"%char ∉ list_ascii_of_string arg) ->
      exists args' : list string,
        Forall2
          (fun arg arg' =>
             (Exists (fun c => nat_of_ascii c = 32%nat \/
                               (9 <= nat_of_ascii c <= 13)%nat)
                     (list_ascii_of_string arg) /\
              arg' = String "034" (arg +:+ String "034" EmptyString)) \/
             (~ Exists (fun c => nat_of_ascii c = 32%nat \/
                                 (9 <= nat_of_ascii c <= 13)%nat)
                       (list_ascii_of_string arg) /\
              arg' = arg))
          args args' /\
        prepareCommandLine cmd args
        = (cmd +:+ foldr (fun a acc => " " +:+ a +:+ acc) EmptyString args',
           None)).
Proof.
  assert (Hnot : ~ Forall (fun c => nat_of_ascii c = 32%nat \/
                                    (9 <= nat_of_ascii c <= 13)%nat)
                          (list_ascii_of_string cmd) ->
                 isBlank cmd = false).
  { intros Hnb. destruct (isBlank cmd) eqn:Hb; [|reflexivity].
    by apply isBlank_spec in Hb. }
  unfold prepareCommandLine. split; [|split].
  - intros Hb. apply isBlank_spec in Hb. rewrite Hb. reflexivity.
  - intros Hnb (arg & Hin & Hdq). rewrite (Hnot Hnb).
    assert (Hex : Exists (fun arg => ContainsRune arg dquote = true) args).
    { apply Exists_exists. exists arg. split; [exact Hin|].
      by apply ContainsRune_spec. }
    destruct (quoteArgs_quote args 0 Hex)
      as (k & a & Hk & Ha & Hfirst & E).
    exists k, a. rewrite E, Z.add_0_l. unfold decimal, Errorf.
    rewrite <- nat_N_Z, N2Z.id. repeat split; try done.
    + by apply ContainsRune_spec in Ha.
    + intros j b Hj Hb Hdqb. apply (ContainsRune_spec b dquote) in Hdqb.
      rewrite (Hfirst j b Hj Hb) in Hdqb. discriminate.
  - intros Hnb Hclean. rewrite (Hnot Hnb).
    assert (Hall : Forall (fun arg => ContainsRune arg dquote = false) args).
    { apply Forall_forall. intros arg Hin.
      destruct (ContainsRune arg dquote) eqn:Hdq; [|reflexivity].
      apply ContainsRune_spec in Hdq. by destruct (Hclean arg Hin). }
    rewrite (quoteArgs_clean args 0 Hall). exists (map quoted args).
    split; [apply quoted_args|].
    rewrite <- Join_spaces, Join_cons.
    destruct (0 <? len (map quoted args)); reflexivity.
Qed.

Lemma prepareCommandLine_spec_witness :
  ~ Forall (fun c => nat_of_ascii c = 32%nat \/
                     (9 <= nat_of_ascii c <= 13)%nat)
           (list_ascii_of_string "ls")
  /\ (forall arg, arg ∈ ["-l"; "my dir"] ->
                  "034"%char ∉ list_ascii_of_string arg)
  /\ exists args' : list string,
       Forall2
         (fun arg arg' =>
            (Exists (fun c => nat_of_ascii c = 32%nat \/
                              (9 <= nat_of_ascii c <= 13)%nat)
                    (list_ascii_of_string arg) /\
             arg' = String "034" (arg +:+ String "034" EmptyString)) \/
            (~ Exists (fun c => nat_of_ascii c = 32%nat \/
                                (9 <= nat_of_ascii c <= 13)%nat)
                      (list_ascii_of_string arg) /\
             arg' = arg))
         ["-l"; "my dir"] args' /\
       prepareCommandLine "ls" ["-l"; "my dir"]
       = ("ls" +:+ foldr (fun a acc => " " +:+ a +:+ acc) EmptyString args',
          None).
Proof.
  assert (Hcmd : ~ Forall (fun c => nat_of_ascii c = 32%nat \/
                                    (9 <= nat_of_ascii c <= 13)%nat)
                          (list_ascii_of_string "ls")).
  { intros Hb. apply Forall_inv in Hb. vm_compute in Hb. lia. }
  assert (Hclean : forall arg, arg ∈ ["-l"; "my dir"] ->
                               "034"%char ∉ list_ascii_of_string arg).
  { intros arg Hin Hdq. apply ContainsRune_spec in Hdq.
    apply elem_of_cons in Hin as [->|Hin]; [discriminate|].
    apply elem_of_cons in Hin as [->|Hin]; [discriminate|].
    by apply elem_of_nil in Hin. }
  split; [exact Hcmd | split; [exact Hclean |]].
  exact (proj2 (proj2 (prepareCommandLine_spec "ls" ["-l"; "my dir"]))
           Hcmd Hclean).
Defined.

(** C8, as stated, fails: the check of the command comes first.  With an
    empty command and an argument that is one double quote, the result is
    the [AssertionError] of the command, not a [ParseError] for the
    argument. *)
Lemma prepareCommandLine_spec_counterexample :
  "034"%char ∈ list_ascii_of_string (String "034" EmptyString)
  /\ prepareCommandLine EmptyString [String "034" EmptyString]
     = (EmptyString,
        Some (Err AssertionError "command cannot be empty" NoDetails None))
  /\ Code (Err AssertionError "command cannot be empty" NoDetails None)
     <> Some ParseError.
Proof.
  split; [by left | split; [reflexivity | discriminate]].
Qed.

(** The line for [ls -l] and [my dir]. *)
Example prepareCommandLine_my_dir :
  prepareCommandLine "ls" ["-l"; "my dir"]
  = ("ls -l " +:+ String "034" ("my dir" +:+ String "034" EmptyString), None).
Proof. reflexivity. Qed.

(** ** The facade *)

Section FacadeFacts.
Context {E : Env}.

Lemma getAttribute_failed (c : Device E) (attr : string) (w w' : World E)
    (resp : list byte) (e : error) :
  roundTripSingleResponse E (server c)
    (getHostPrefix (descriptor c) +:+ ":" +:+ attr) w = (resp, Some e, w') ->
  getAttribute c attr w = (EmptyString, Some e, w').
Proof.
  intros Hrt. unfold getAttribute, mbind, IO_bind. rewrite Hrt. reflexivity.
Qed.

(** What a facade call puts around an error: the operation and the device,
    with the error itself as the cause. *)
Lemma clientError_context (e : error) (c : Device E) (operation : string) :
  exists code,
    clientError e c operation
    = Err code operation (ClientDetails operation (descriptor c)) (Some e).
Proof. eexists. reflexivity. Qed.

(** C7.  When the attribute query of [State] fails with an error whose text
    has [unauthorized] in it, [State] returns [StateUnauthorized] and no
    error; when it fails with any other error, [State] returns
    [StateInvalid] and the error wrapped with the operation [State] and the
    descriptor of the device. *)
Theorem State_unauthorized (c : Device E) (w w' : World E)
    (resp : list byte) (e : error) :
  roundTripSingleResponse E (server c)
    (getHostPrefix (descriptor c) +:+ ":get-state") w = (resp, Some e, w') ->
  ((exists pre post, ErrorText E e = pre +:+ "unauthorized" +:+ post) ->
   State c w = (StateUnauthorized, None, w'))
  /\ (~ (exists pre post, ErrorText E e = pre +:+ "unauthorized" +:+ post) ->
      State c w = (StateInvalid, Some (clientError e c "State"), w')
      /\ Details (clientError e c "State")
         = ClientDetails "State" (descriptor c)).
Proof.
  intros Hrt. apply getAttribute_failed in Hrt.
  unfold State, mbind, IO_bind. rewrite Hrt.
  destruct (Contains (ErrorText E e) "unauthorized") eqn:Hc.
  - split; [reflexivity|]. intros Hno. apply Contains_spec in Hc. tauto.
  - split; [|by split]. intros Hyes. apply Contains_spec in Hyes. congruence.
Qed.

(** C10.  [Pull] and [Push] with an empty [remotePath], or with a nil
    [localFile], return an [AssertionError] and leave the world as it was:
    no connection is opened and nothing is sent. *)
Theorem Pull_Push_reject_early (c : Device E) (w : World E) :
  (forall localFile,
     Pull c EmptyString localFile w
     = (Some (Errorf AssertionError "remotePath cannot be empty"), w))
  /\ (forall remotePath,
        Pull c remotePath None w
        = (Some (Errorf AssertionError
                   (if String.eqb remotePath EmptyString
                    then "remotePath cannot be empty"
                    else "localFile cannot be nil")), w))
  /\ (forall localFile,
        Push c localFile EmptyString w
        = (Some (Errorf AssertionError "remotePath cannot be empty"), w))
  /\ (forall remotePath,
        Push c None remotePath w
        = (Some (Errorf AssertionError
                   (if String.eqb remotePath EmptyString
                    then "remotePath cannot be empty"
                    else "localFile cannot be nil")), w)).
Proof.
  unfold Pull, Push. repeat split; intros; try reflexivity;
    destruct (String.eqb remotePath EmptyString); reflexivity.
Qed.

End FacadeFacts.

Lemma State_unauthorized_witness :
  roundTripSingleResponse scripted
      (server (scripted_device (BySerial "emulator-5554")))
      (getHostPrefix (BySerial "emulator-5554") +:+ ":get-state")
      (script [Some (Errorf AdbError "device unauthorized.")])
    = ([], Some (Errorf AdbError "device unauthorized."),
       {| Errs := []; Trace := ["RoundTrip"] |})
  /\ (exists pre post,
        ErrorText scripted (Errorf AdbError "device unauthorized.")
        = pre +:+ "unauthorized" +:+ post)
  /\ State (scripted_device (BySerial "emulator-5554"))
       (script [Some (Errorf AdbError "device unauthorized.")])
     = (StateUnauthorized, None, {| Errs := []; Trace := ["RoundTrip"] |}).
Proof.
  assert (Hrt : roundTripSingleResponse scripted
      (server (scripted_device (BySerial "emulator-5554")))
      (getHostPrefix (descriptor (scripted_device (BySerial "emulator-5554")))
       +:+ ":get-state")
      (script [Some (Errorf AdbError "device unauthorized.")])
    = ([], Some (Errorf AdbError "device unauthorized."),
       {| Errs := []; Trace := ["RoundTrip"] |})) by reflexivity.
  assert (Htext : exists pre post,
        ErrorText scripted (Errorf AdbError "device unauthorized.")
        = pre +:+ "unauthorized" +:+ post)
    by (exists "device ", "."; reflexivity).
  split; [exact Hrt | split; [exact Htext |]].
  exact (proj1 (State_unauthorized _ _ _ _ _ Hrt) Htext).
Defined.

(** The scripted server sees no call when [Pull] and [Push] reject their
    arguments. *)
Example Pull_Push_no_call :
  Pull (scripted_device AnyDevice) "" (Some tt) (script [])
  = (Some (Errorf AssertionError "remotePath cannot be empty"), script [])
  /\ Push (scripted_device AnyDevice) None "/sdcard/f" (script [])
     = (Some (Errorf AssertionError "localFile cannot be nil"), script [])
  /\ Trace (Pull (scripted_device AnyDevice) "/sdcard/f" (Some tt)
              (script [])).2
     = ["Dial"; "SendMessage"; "ReadStatus"; "SendMessage"; "ReadStatus";
        "STAT"; "Close";
        "Dial"; "SendMessage"; "ReadStatus"; "SendMessage"; "ReadStatus";
        "RECV"; "CopyN"; "Close"].
Proof. repeat split; reflexivity. Qed.

(** C9 fails on the code.  When the shell request is accepted and reading
    the v2 stream fails, [RunCommandV2WithStd] returns the error of
    [ReadUntilEofV2WithStd] as it is, with neither the operation nor the
    device in it; [RunCommandV2] passes it on.  [RunCommand], at the same
    point, wraps the error of [ReadUntilEof]. *)
Theorem RunCommandV2WithStd_returns_unwrapped :
  let c := scripted_device (BySerial "emulator-5554") in
  let e := Errorf ConnectionResetError "incomplete packet" in
  let w := script [None; None; None; None; None; Some e] in
  (RunCommandV2WithStd (W1:=Buffer) (W2:=Buffer) c None None "ls" [] w).1
  = (0, Some e, None, None)
  /\ (RunCommandV2 c "ls" [] w).1 = (0, EmptyString, EmptyString, Some e)
  /\ Details e = NoDetails
  /\ (RunCommand c "ls" [] w).1
     = (EmptyString,
        Some (Err ConnectionResetError "RunCommand"
                (ClientDetails "RunCommand" (BySerial "emulator-5554"))
                (Some e))).
Proof. repeat split; reflexivity. Qed.

(** Every error that [RunCommand] returns is wrapped with the operation
    and the device, on whatever server. *)
Lemma RunCommand_wraps (E : Env) (c : Device E) (cmd : string)
    (args : list string) (w w' : World E) (out : string) (err : error) :
  RunCommand c cmd args w = (out, Some err, w') ->
  Details err = ClientDetails "RunCommand" (descriptor c).
Proof.
  unfold RunCommand, mbind, IO_bind, mret, IO_ret, wrapClientError.
  repeat case_match; intros Hr; simplify_eq/=; try reflexivity.
  match goal with
  | H : _ <$> ?o = Some _ |- _ => destruct o; simplify_eq/=
  end.
  reflexivity.
Qed.

(** The cases of the package's tests for the diff of two snapshots. *)
Example calculateStateDiffs_tests :
  Watcher.calculateStateDiffs ∅ ∅ = []
  /\ Watcher.calculateStateDiffs
       {[ "1" := StateOnline; "2" := StateOnline ]}
       {[ "1" := StateOnline; "2" := StateOnline ]} = []
  /\ Watcher.calculateStateDiffs ∅ {[ "serial" := StateOffline ]}
     = [ Watcher.Event "serial" StateDisconnected StateOffline ]
  /\ Watcher.calculateStateDiffs {[ "serial" := StateOffline ]} ∅
     = [ Watcher.Event "serial" StateOffline StateDisconnected ]
  /\ Watcher.calculateStateDiffs
       {[ "1" := StateOffline ]} {[ "2" := StateOffline ]}
     = [ Watcher.Event "1" StateOffline StateDisconnected;
         Watcher.Event "2" StateDisconnected StateOffline ]
  /\ Watcher.calculateStateDiffs
       {[ "1" := StateOffline; "2" := StateOnline ]}
       {[ "1" := StateOnline; "2" := StateOffline ]}
     = [ Watcher.Event "1" StateOffline StateOnline;
         Watcher.Event "2" StateOnline StateOffline ].
Proof. repeat split; vm_compute; reflexivity. Qed.

(** * More of the decoder *)

Section DecoderInvariants.
Context {W1 W2 : Type} `{Writer W1, Writer W2}.

(** Whatever the loop ends in, the exit code it holds is one byte, and the
    loop does not move [offset] back. *)
Lemma packetLoop_exit_range (fuel : nat) :
  forall (data : list byte) (offset ec : Z)
         (out : option W1) (err : option W2) (r : loop_end),
    0 <= ec < 256 ->
    packetLoop fuel data offset ec out err = Some r ->
    match r with
    | Left offset' ec' _ _ => 0 <= ec' < 256 /\ offset <= offset'
    | Returned ec' _ _ _ => 0 <= ec' < 256
    end.
Proof.
  induction fuel as [|fuel IH]; intros data offset ec out err r Hec Hrun;
    [discriminate|].
  cbn [packetLoop] in Hrun. cbv zeta in Hrun.
  destruct (negb (offset <? len data)); [inversion Hrun; lia|].
  destruct (len data <? offset + 5); [inversion Hrun; lia|].
  pose proof (Uint32_range (slice data (offset + 1) (offset + 5))) as Hr.
  destruct (len data <? offset + 5 + _); [inversion Hrun; lia|].
  rewrite switch_id in Hrun.
  assert (Hnext : forall ec' (out' : option W1) (err' : option W2),
    0 <= ec' < 256 ->
    packetLoop fuel data
      (offset + 5 + Uint32 (slice data (offset + 1) (offset + 5)))
      ec' out' err' = Some r ->
    match r with
    | Left offset' ec'' _ _ => 0 <= ec'' < 256 /\ offset <= offset'
    | Returned ec'' _ _ _ => 0 <= ec'' < 256
    end).
  { intros ec' out' err' Hec' Hrun'. apply IH in Hrun'; [|exact Hec'].
    destruct r; [|exact Hrun']. lia. }
  destruct (_ =? 1).
  { destruct (write_to out _) as [? [?|]]; [by inversion Hrun|].
    by apply Hnext in Hrun. }
  destruct (_ =? 2).
  { destruct (write_to err _) as [? [?|]]; [by inversion Hrun|].
    by apply Hnext in Hrun. }
  destruct (_ =? 3); [|inversion Hrun; lia].
  apply Hnext in Hrun; [exact Hrun|].
  destruct (0 <? len _); [apply byte_to_Z_range | exact Hec].
Qed.

(** X1.  [DecodeV2Data] returns on every input and with any sinks, and the
    exit code it returns is a byte: between 0 and 255. *)
Theorem DecodeV2Data_exit_code_byte (data : list byte)
    (out : option W1) (err : option W2) :
  exists r, DecodeV2Data data out err = Some r /\ 0 <= exit_code r < 256.
Proof.
  destruct (DecodeV2Data_total data out err) as [r Hr].
  exists r. split; [exact Hr|].
  unfold DecodeV2Data in Hr.
  destruct (packetLoop _ _ _ _ _ _) as [l|] eqn:Hrun; [|discriminate].
  apply packetLoop_exit_range in Hrun; [|lia].
  destruct l; inversion Hr; subst r; cbn [exit_code]; tauto.
Qed.

(** The loop over packets that only carry a status (id 3): the sinks are
    not touched, whatever they are. *)
Lemma packetLoop_status_packets (pkts : list packet) :
  forall (fuel : nat) (pre tail : list byte) (ec : Z)
         (out : option W1) (err : option W2),
    Forall wf_packet pkts ->
    Forall (fun p => byte_to_Z (packetId p) = 3) pkts ->
    packetLoop (length pkts + fuel) (pre ++ encode pkts ++ tail)
               (len pre) ec out err
    = packetLoop fuel (pre ++ encode pkts ++ tail)
        (len pre + len (encode pkts)) (exit_status ec pkts) out err.
Proof.
  induction pkts as [|p pkts IH]; intros fuel pre tail ec out err Hwf Hid.
  - cbn [length Nat.add encode map concat app].
    change (len (@nil byte)) with 0. rewrite Z.add_0_r. reflexivity.
  - apply Forall_cons in Hwf as [Hp Hwf]. apply Forall_cons in Hid as [Hk Hid].
    rewrite encode_cons, <- !app_assoc.
    cbn [length Nat.add]. rewrite packetLoop_packet by exact Hp. cbv zeta.
    assert (Hoff : len pre + 5 + len (payload p) = len (pre ++ encode_packet p))
      by (rewrite len_app, len_encode_packet; lia).
    assert (Hend : len pre + len (encode_packet p ++ encode pkts)
                   = len (pre ++ encode_packet p) + len (encode pkts))
      by (rewrite !len_app; lia).
    rewrite Hoff, Hend, (app_assoc pre (encode_packet p)).
    rewrite exit_status_cons. unfold carries_status.
    rewrite Hk. cbn [Z.eqb Pos.eqb andb].
    by rewrite IH.
Qed.

(** X2.  When the stdout sink refuses the payload of an id-1 packet,
    [DecodeV2Data] stops there: it returns [failed to write to stdout]
    around the sink's error, together with the exit code of the status
    packets seen so far, and looks at nothing that follows.  The same holds
    for the stderr sink and an id-2 packet. *)
Theorem DecodeV2Data_sink_failure (pkts : list packet) (p : packet)
    (rest : list byte) (e : error) :
  Forall wf_packet pkts ->
  Forall (fun q => byte_to_Z (packetId q) = 3) pkts ->
  wf_packet p ->
  (forall (w w' : W1) (err : option W2),
     byte_to_Z (packetId p) = 1 -> Write w (payload p) = (w', Some e) ->
     DecodeV2Data (encode pkts ++ encode_packet p ++ rest) (Some w) err
     = Some (Decoded (exit_status 0 pkts)
               (Some (fmtErrorf "failed to write to stdout: " e))
               (Some w') err))
  /\ (forall (w w' : W2) (out : option W1),
        byte_to_Z (packetId p) = 2 -> Write w (payload p) = (w', Some e) ->
        DecodeV2Data (encode pkts ++ encode_packet p ++ rest) out (Some w)
        = Some (Decoded (exit_status 0 pkts)
                  (Some (fmtErrorf "failed to write to stderr: " e))
                  out (Some w'))).
Proof.
  intros Hwf Hid Hp.
  set (data := encode pkts ++ encode_packet p ++ rest).
  assert (Hlen : (length pkts < length data)%nat).
  { unfold data. rewrite !length_app.
    pose proof (length_encode pkts). pose proof (len_encode_packet p).
    pose proof (len_nonneg (payload p)). unfold len in *. lia. }
  assert (Hrun : forall (out : option W1) (err : option W2),
    packetLoop (S (length data)) data 0 0 out err
    = packetLoop (S (S (length data - length pkts - 1))) data
        (len (encode pkts)) (exit_status 0 pkts) out err).
  { intros out err.
    replace (S (length data))
      with (length pkts + S (S (length data - length pkts - 1)))%nat by lia.
    pose proof (packetLoop_status_packets pkts
                  (S (S (length data - length pkts - 1))) []
                  (encode_packet p ++ rest) 0 out err Hwf Hid) as Hs.
    cbn [app] in Hs.
    change (len (@nil byte)) with 0 in Hs. rewrite Z.add_0_l in Hs.
    exact Hs. }
  split.
  - intros w w' err Hk Hw. unfold DecodeV2Data. fold data. rewrite Hrun.
    unfold data. rewrite packetLoop_packet by exact Hp. cbv zeta.
    rewrite Hk. cbn [Z.eqb Pos.eqb write_to]. rewrite Hw. reflexivity.
  - intros w w' out Hk Hw. unfold DecodeV2Data. fold data. rewrite Hrun.
    unfold data. rewrite packetLoop_packet by exact Hp. cbv zeta.
    rewrite Hk. cbn [Z.eqb Pos.eqb write_to]. rewrite Hw. reflexivity.
Qed.


End DecoderInvariants.

Lemma DecodeV2Data_sink_failure_witness :
  Forall wf_packet [Packet Byte.x03 [Byte.x07]]
  /\ Forall (fun q => byte_to_Z (packetId q) = 3) [Packet Byte.x03 [Byte.x07]]
  /\ wf_packet (Packet Byte.x01 [Byte.x68; Byte.x69])
  /\ DecodeV2Data
       (encode [Packet Byte.x03 [Byte.x07]]
        ++ encode_packet (Packet Byte.x01 [Byte.x68; Byte.x69])
        ++ [Byte.x09])
       (Some {| room := 1; written := [] |}) (Some ([] : Buffer))
     = Some (Decoded 7
               (Some (fmtErrorf "failed to write to stdout: "
                        (Errorf NetworkError "short write")))
               (Some {| room := 1; written := [] |}) (Some [])).
Proof.
  assert (Hwf : Forall wf_packet [Packet Byte.x03 [Byte.x07]])
    by (repeat constructor).
  assert (Hid : Forall (fun q => byte_to_Z (packetId q) = 3)
                  [Packet Byte.x03 [Byte.x07]])
    by (repeat constructor).
  assert (Hp : wf_packet (Packet Byte.x01 [Byte.x68; Byte.x69]))
    by reflexivity.
  repeat (split; [assumption|]).
  exact (proj1 (DecodeV2Data_sink_failure (W1:=Bounded) (W2:=Buffer)
                  _ _ [Byte.x09] _ Hwf Hid Hp)
           {| room := 1; written := [] |} {| room := 1; written := [] |}
           (Some []) eq_refl eq_refl).
Defined.


(** ** Every stream is packets and a rest *)




(** * More of the stream decoder *)

Section StreamDecoderFacts.
Context {W1 W2 : Type} `{Writer W1, Writer W2}.

(** X5.  When the whole stream arrives in one read (a chunk that fits the
    4096-byte buffer) and the next read reports the end of the stream,
    [DecodeDataFromReader] does what [DecodeV2Data] does on the bytes of
    that read, whatever the sinks are.  On a stream that ends at once it
    returns exit code 0, no error, and leaves the sinks alone. *)
Theorem DecodeDataFromReader_one_read (fuel : nat) (chunk : list byte)
    (out : option W1) (err : option W2) :
  (length chunk <= 4096)%nat ->
  DecodeDataFromReader (2 + fuel) ([chunk] : Chunks) out err
  = DecodeV2Data chunk out err
  /\ DecodeDataFromReader (1 + fuel) ([] : Chunks) out err
     = Some (Decoded 0 None out err).
Proof.
  intros Hfit. split; [|reflexivity].
  unfold DecodeDataFromReader, DecodeV2Data.
  cbn [Nat.add readLoop Read Chunks_Reader].
  apply Nat.leb_le in Hfit. rewrite Hfit. rewrite andb_false_r.
  destruct (packetLoop (S (length chunk)) chunk 0 0 out err) as [[]|];
    reflexivity.
Qed.

(** The read loop over chunks that fit the buffer: one read per chunk and
    one more for the end of the stream. *)
Lemma readLoop_chunks (chunks : Chunks) :
  forall (offset ec : Z) (out : option W1) (err : option W2),
    Forall (fun c => (length c <= 4096)%nat) chunks ->
    0 <= offset -> 0 <= ec < 256 ->
    exists r, readLoop (S (length chunks)) chunks offset ec out err = Some r
              /\ 0 <= exit_code r < 256.
Proof.
  induction chunks as [|c chunks IH]; intros offset ec out err Hfit Ho Hec.
  - eexists. split; [reflexivity|]. exact Hec.
  - apply Forall_cons in Hfit as [Hc Hfit].
    cbn [length readLoop Read Chunks_Reader].
    apply Nat.leb_le in Hc. rewrite Hc. rewrite andb_false_r.
    destruct (packetLoop_total (S (length c)) c offset ec out err)
      as [l Hl]; [exact Ho | unfold len; lia |].
    rewrite Hl. pose proof (packetLoop_exit_range _ _ _ _ _ _ _ Hec Hl) as Hr.
    destruct l as [offset' ec' out' err'|ec' e out' err'].
    + destruct Hr as [Hec' Ho'].
      apply (IH offset' ec' out' err' Hfit); [lia | exact Hec'].
    + eexists. split; [reflexivity | exact Hr].
Qed.

(** X6.  On a reader that hands out chunks that fit the buffer,
    [DecodeDataFromReader] returns after one read per chunk and one more,
    whatever the bytes and the sinks are, and the exit code it returns is
    a byte. *)
Theorem DecodeDataFromReader_chunks_return (chunks : Chunks)
    (out : option W1) (err : option W2) :
  Forall (fun c => (length c <= 4096)%nat) chunks ->
  exists r, DecodeDataFromReader (S (length chunks)) chunks out err = Some r
            /\ 0 <= exit_code r < 256.
Proof.
  intros Hfit. unfold DecodeDataFromReader.
  apply readLoop_chunks; [exact Hfit | lia | lia].
Qed.

End StreamDecoderFacts.

Lemma DecodeDataFromReader_one_read_witness :
  (length shell_v2_stream <= 4096)%nat
  /\ DecodeDataFromReader 2 ([shell_v2_stream] : Chunks)
       (Some ([] : Buffer)) (Some ([] : Buffer))
     = DecodeV2Data shell_v2_stream (Some []) (Some []).
Proof.
  assert (Hfit : (length shell_v2_stream <= 4096)%nat)
    by (unfold shell_v2_stream; simpl length; lia).
  split; [exact Hfit|].
  exact (proj1 (DecodeDataFromReader_one_read (W1:=Buffer) (W2:=Buffer)
                  0 shell_v2_stream (Some []) (Some []) Hfit)).
Defined.

Lemma DecodeDataFromReader_chunks_return_witness :
  Forall (fun c => (length c <= 4096)%nat)
    [shell_v2_truncated; shell_v2_stream]
  /\ exists r,
       DecodeDataFromReader 3 ([shell_v2_truncated; shell_v2_stream] : Chunks)
         (Some ([] : Buffer)) (Some ([] : Buffer)) = Some r
       /\ 0 <= exit_code r < 256.
Proof.
  assert (Hfit : Forall (fun c => (length c <= 4096)%nat)
                   [shell_v2_truncated; shell_v2_stream])
    by (constructor; [simpl length; lia |];
        constructor; [simpl length; lia | constructor]).
  split; [exact Hfit|].
  exact (DecodeDataFromReader_chunks_return (W1:=Buffer) (W2:=Buffer)
           [shell_v2_truncated; shell_v2_stream] (Some []) (Some []) Hfit).
Defined.

(** * More of FAIL classification *)

(** X7.  The error that [adbServerError] builds has the kind
    [DeviceNotFound] exactly when the server's message holds
    [device not found], or [device '], some bytes with no line feed among
    them, and [' not found]. *)
Theorem adbServerError_device_not_found (request serverMsg : string) :
  Code (adbServerError request serverMsg) = Some DeviceNotFound <->
  exists pre post : list ascii,
    chars serverMsg = pre ++ chars "device not found" ++ post \/
    exists x : list ascii,
      Forall (fun c => c <> newline) x /\
      chars serverMsg
      = pre ++ (chars "device '" ++ x ++ chars "' not found") ++ post.
Proof.
  unfold adbServerError. cbn [Code].
  destruct (MatchString deviceNotFoundMessagePattern serverMsg) eqn:Hm.
  - split; [intros _ | reflexivity].
    apply MatchString_spec in Hm as (pre & mid & post & E & HL).
    apply deviceNotFoundMessagePattern_Lang in HL as [->|(x & Hx & ->)];
      exists pre, post; [by left | right; by exists x].
  - split; [discriminate|]. intros (pre & post & Hcase).
    assert (Hyes : MatchString deviceNotFoundMessagePattern serverMsg = true);
      [|congruence].
    apply MatchString_spec.
    destruct Hcase as [E|(x & Hx & E)].
    + exists pre, (chars "device not found"), post. split; [exact E|].
      apply deviceNotFoundMessagePattern_Lang. by left.
    + exists pre, (chars "device '" ++ x ++ chars "' not found"), post.
      split; [exact E|].
      apply deviceNotFoundMessagePattern_Lang. right. by exists x.
Qed.


(** * Writing all of a slice *)

Section WriteFully.
Context {W : Type} `{CountingWriter W}.

(** What the writer holds, and the writers that behave: a call on such a
    writer with bytes to write takes a prefix of them; when it reports no
    error the prefix is not empty (it may be short of the whole). *)
Variable contents : W -> list byte.
Variable behaves : W -> Prop.

Hypothesis Write_prefix :
  forall (w : W) (p : list byte),
    behaves w -> p <> [] ->
    exists (w' : W) (n : nat) (e : option error),
      WriteSome w p = (w', Z.of_nat n, e) /\
      behaves w' /\ (n <= length p)%nat /\
      contents w' = contents w ++ take n p /\
      (e = None -> (1 <= n)%nat).

Lemma writeLoop_behaves (data : list byte) (fuel : nat) :
  forall (w : W) (o : nat),
    behaves w -> (o <= length data)%nat -> (length data - o < fuel)%nat ->
    exists (w' : W) (r : option error),
      writeLoop fuel w data (Z.of_nat o) = Some (w', r) /\
      match r with
      | None => contents w' = contents w ++ drop o data
      | Some e =>
        exists (at_ n : nat) (cause : error) (w1 : W),
          (o <= at_)%nat /\ (at_ < length data)%nat /\
          behaves w1 /\
          contents w1 = contents w ++ take (at_ - o) (drop o data) /\
          WriteSome w1 (drop at_ data) = (w', Z.of_nat n, Some cause) /\
          e = Err NetworkError
                ("error writing "
                 +:+ NilZero.string_of_uint
                       (N.to_uint (N.of_nat (length data)))
                 +:+ " bytes at offset "
                 +:+ NilZero.string_of_uint (N.to_uint (N.of_nat at_)))
                NoDetails (Some cause)
      end.
Proof.
  induction fuel as [|fuel IH]; intros w o Hw Ho Hfuel; [lia|].
  cbn [writeLoop]. unfold len.
  destruct (Z.ltb_spec (Z.of_nat o) (Z.of_nat (length data))) as [Hlt|Hge].
  - assert (Hp : slice_from data (Z.of_nat o) <> []).
    { unfold slice_from. rewrite Nat2Z.id. intros Hnil.
      apply (f_equal length) in Hnil. rewrite length_drop in Hnil.
      simpl in Hnil. lia. }
    destruct (Write_prefix w _ Hw Hp)
      as (w1 & n & e & Hcall & Hw1 & Hn & Hc & Hsome).
    rewrite Hcall. unfold slice_from in Hn, Hc, Hcall.
    rewrite Nat2Z.id in Hn, Hc, Hcall. rewrite length_drop in Hn.
    destruct e as [e|].
    + eexists w1, _. split; [reflexivity|].
      exists o, n, e, w. repeat split; try lia; try assumption.
      * by rewrite Nat.sub_diag, take_0, app_nil_r.
      * unfold WrapErrorf, decimal. by rewrite <- !nat_N_Z, !N2Z.id.
    + specialize (Hsome eq_refl).
      replace (Z.of_nat o + Z.of_nat n) with (Z.of_nat (o + n)) by lia.
      destruct (IH w1 (o + n)%nat Hw1) as (w' & r & Hrun & Hr); [lia|lia|].
      exists w', r. split; [exact Hrun|].
      destruct r as [e|].
      * destruct Hr as (at_ & m & cause & w2 & Hat & Hlt' & Hw2 & Hc2
                        & Hfail & He).
        exists at_, m, cause, w2. repeat split; try lia; try assumption.
        rewrite Hc2, Hc, <- app_assoc. f_equal.
        replace (at_ - o)%nat with (n + (at_ - (o + n)))%nat by lia.
        rewrite <- take_take_drop, drop_drop. reflexivity.
      * rewrite Hr, Hc, <- app_assoc. f_equal.
        rewrite <- (take_drop n (drop o data)) at 2.
        by rewrite drop_drop.
  - exists w, None. split; [reflexivity|].
    rewrite drop_ge by lia. by rewrite app_nil_r.
Qed.

(** X9.  On a writer that takes a non-empty prefix of what it is given
    whenever it reports no error, [writeFully] returns after at most one
    call per byte.  When it returns no error the writer has taken all of
    [data], in order, whatever way the calls cut it.  When it returns an
    error, some call of [Write] failed: the writer had then taken the
    first [at_] bytes of [data], the call was given [data[at_:]], and the
    error returned is a [NetworkError] around the error of that call, whose
    message names the length of [data] and the offset [at_]. *)
Theorem writeFully_all_or_error (w : W) (data : list byte) :
  behaves w ->
  exists (w' : W) (r : option error),
    writeFully (S (length data)) w data = Some (w', r) /\
    match r with
    | None => contents w' = contents w ++ data
    | Some e =>
      exists (at_ n : nat) (cause : error) (w1 : W),
        (at_ < length data)%nat /\
        behaves w1 /\
        contents w1 = contents w ++ take at_ data /\
        WriteSome w1 (drop at_ data) = (w', Z.of_nat n, Some cause) /\
        e = Err NetworkError
              ("error writing "
               +:+ NilZero.string_of_uint
                     (N.to_uint (N.of_nat (length data)))
               +:+ " bytes at offset "
               +:+ NilZero.string_of_uint (N.to_uint (N.of_nat at_)))
              NoDetails (Some cause)
    end.
Proof.
  intros Hw. unfold writeFully.
  destruct (writeLoop_behaves data (S (length data)) w 0 Hw)
    as (w' & r & Hrun & Hr); [lia|lia|].
  exists w', r. split; [exact Hrun|].
  destruct r as [e|]; [|exact Hr].
  destruct Hr as (at_ & n & cause & w1 & Hat & Hlt & Hw1 & Hc & Hfail & He).
  exists at_, n, cause, w1. repeat split; try assumption.
  rewrite Hc. do 2 f_equal. lia.
Qed.

End WriteFully.

(** A pipe that takes at least one byte per call behaves. *)
Lemma Pipe_takes_prefix (w : Pipe) (p : list byte) :
  (1 <= burst w)%nat -> p <> [] ->
  exists (w' : Pipe) (n : nat) (e : option error),
    WriteSome w p = (w', Z.of_nat n, e) /\
    (1 <= burst w')%nat /\ (n <= length p)%nat /\
    taken w' = taken w ++ take n p /\
    (e = None -> (1 <= n)%nat).
Proof.
  intros Hb Hp. unfold WriteSome, Pipe_CountingWriter.
  destruct p as [|b p]; [done|].
  destruct (space w) as [|s] eqn:Hs.
  - exists w, 0%nat, (Some (Errorf NetworkError "pipe is full")).
    repeat split; try done; [lia | by rewrite take_0, app_nil_r].
  - eexists _, _, None. split; [reflexivity|].
    cbn [burst taken]. repeat split; try done; simpl length; lia.
Qed.

Lemma writeFully_all_or_error_witness :
  (1 <= burst {| burst := 2; space := 3; taken := [] |})%nat
  /\ exists (w' : Pipe) (r : option error),
       writeFully 6 {| burst := 2; space := 3; taken := [] |}
         [Byte.x61; Byte.x62; Byte.x63; Byte.x64; Byte.x65] = Some (w', r) /\
       match r with
       | None =>
         taken w' = [] ++ [Byte.x61; Byte.x62; Byte.x63; Byte.x64; Byte.x65]
       | Some e =>
         exists (at_ n : nat) (cause : error) (w1 : Pipe),
           (at_ < 5)%nat /\
           (1 <= burst w1)%nat /\
           taken w1
           = [] ++ take at_ [Byte.x61; Byte.x62; Byte.x63; Byte.x64; Byte.x65]
           /\
           WriteSome w1
             (drop at_ [Byte.x61; Byte.x62; Byte.x63; Byte.x64; Byte.x65])
           = (w', Z.of_nat n, Some cause) /\
           e = Err NetworkError
                 ("error writing "
                  +:+ NilZero.string_of_uint (N.to_uint (N.of_nat 5))
                  +:+ " bytes at offset "
                  +:+ NilZero.string_of_uint (N.to_uint (N.of_nat at_)))
                 NoDetails (Some cause)
       end.
Proof.
  assert (Hb : (1 <= burst {| burst := 2; space := 3; taken := [] |})%nat)
    by (simpl; lia).
  split; [exact Hb|].
  exact (writeFully_all_or_error taken (fun w => (1 <= burst w)%nat)
           Pipe_takes_prefix {| burst := 2; space := 3; taken := [] |}
           [Byte.x61; Byte.x62; Byte.x63; Byte.x64; Byte.x65] Hb).
Defined.

(** A pipe with room for 3 bytes that takes 2 bytes per call: two calls
    succeed, the third, at offset 3, fails. *)
Example writeFully_full_pipe :
  writeFully 6 {| burst := 2; space := 3; taken := [] |}
    [Byte.x61; Byte.x62; Byte.x63; Byte.x64; Byte.x65]
  = Some ({| burst := 2; space := 0;
             taken := [Byte.x61; Byte.x62; Byte.x63] |},
          Some (Err NetworkError "error writing 5 bytes at offset 3"
                  NoDetails (Some (Errorf NetworkError "pipe is full")))).
Proof. reflexivity. Qed.

(** * Closing more than once *)

Module MultiCloseFacts.
Import MultiClose.

Section Closers.
Context {C : Type} `{Closer C}.

Lemma closes_done (n : nat) (c : multiCloseable C) :
  closeOnce c = true -> closes n c = (c, replicate n (err c)).
Proof.
  intros Hdone. induction n as [|n IH]; [reflexivity|].
  cbn [closes replicate]. unfold multiClose. rewrite Hdone, IH. reflexivity.
Qed.

(** X10.  However many times [Close] is called on what [MultiCloseable]
    returns, the wrapped closer is closed once, by the first call, and
    every call returns the error of that one close. *)
Theorem MultiCloseable_closes_once (n : nat) (c : C) :
  closes (S n) (MultiCloseable c)
  = ({| ReadWriteCloser := (Close c).1; closeOnce := true;
        err := (Close c).2 |},
     replicate (S n) (Close c).2).
Proof.
  cbn [closes]. unfold multiClose, MultiCloseable.
  cbn [closeOnce ReadWriteCloser].
  destruct (Close c) as [c' e]. cbn [fst snd].
  rewrite closes_done by reflexivity. reflexivity.
Qed.

End Closers.

(** A socket closed three times through [MultiCloseable] is closed once,
    and no call reports the error of a second close. *)
Example socket_closed_once :
  closes 3 (MultiCloseable {| closed := 0 |})
  = ({| ReadWriteCloser := {| closed := 1 |}; closeOnce := true;
        err := None |}, [None; None; None]).
Proof. reflexivity. Qed.

End MultiCloseFacts.

(** * Reading a command line back *)

Lemma no_whitespace_no_space (a : string) :
  containsWhitespace a = false -> ContainsRune a " " = false.
Proof.
  induction a as [|c a IH]; [reflexivity|].
  cbn [containsWhitespace ContainsRune]. intros Hws.
  apply orb_false_iff in Hws as [Hc Ha]. rewrite (IH Ha), orb_false_r.
  destruct (Ascii.eqb_spec c " ") as [->|]; [discriminate | reflexivity].
Qed.

(** A stretch with no double quote in it, and with no space in it unless it
    is read inside quotes, goes into the word being read. *)
Lemma words_from_plain (a : string) :
  forall (rest : string) (inQuote : bool) (cur : string),
    ContainsRune a dquote = false ->
    inQuote = true \/ ContainsRune a " " = false ->
    words_from (a +:+ rest) inQuote cur
    = words_from rest inQuote (cur +:+ a).
Proof.
  induction a as [|c a IH]; intros rest inQuote cur Hdq Hsp.
  - by rewrite append_empty_r.
  - cbn [ContainsRune] in Hdq. apply orb_false_iff in Hdq as [Hc Hdq].
    change (String c a +:+ rest) with (String c (a +:+ rest)).
    cbn [words_from]. rewrite Hc.
    assert (Hnot : Ascii.eqb c " " && negb inQuote = false).
    { destruct Hsp as [->|Hsp]; [apply andb_false_r|].
      cbn [ContainsRune] in Hsp. apply orb_false_iff in Hsp as [-> _].
      reflexivity. }
    rewrite Hnot, IH.
    + rewrite append_assoc'. reflexivity.
    + exact Hdq.
    + destruct Hsp as [->|Hsp]; [by left | right].
      cbn [ContainsRune] in Hsp. by apply orb_false_iff in Hsp as [_ ?].
Qed.

(** An argument as [prepareCommandLine] writes it reads back as the
    argument. *)
Lemma words_from_quoted (a rest cur : string) :
  ContainsRune a dquote = false ->
  words_from (quoted a +:+ rest) false cur
  = words_from rest false (cur +:+ a).
Proof.
  intros Hdq. unfold quoted. destruct (containsWhitespace a) eqn:Hws.
  - unfold inQuotes.
    change (String dquote a +:+ String dquote EmptyString)
      with (String dquote (a +:+ String dquote EmptyString)).
    change (String dquote (a +:+ String dquote EmptyString) +:+ rest)
      with (String dquote ((a +:+ String dquote EmptyString) +:+ rest)).
    rewrite append_assoc'.
    cbn [words_from]. rewrite Ascii.eqb_refl. cbn [negb].
    rewrite words_from_plain by auto.
    change (String dquote EmptyString +:+ rest) with (String dquote rest).
    cbn [words_from]. rewrite Ascii.eqb_refl. reflexivity.
  - apply words_from_plain; [exact Hdq|].
    right. by apply no_whitespace_no_space.
Qed.

Lemma words_from_Join (args : list string) :
  forall (a cur : string),
    Forall (fun arg => ContainsRune arg dquote = false) (a :: args) ->
    words_from (Join (map quoted (a :: args)) " ") false cur
    = (cur +:+ a) :: args.
Proof.
  induction args as [|b args IH]; intros a cur Hall;
    apply Forall_cons in Hall as [Ha Hall].
  - cbn [map Join]. rewrite <- (append_empty_r (quoted a)).
    rewrite words_from_quoted by exact Ha. reflexivity.
  - change (Join (map quoted (a :: b :: args)) " ")
      with (quoted a +:+ " " +:+ Join (map quoted (b :: args)) " ").
    rewrite words_from_quoted by exact Ha.
    change (" " +:+ Join (map quoted (b :: args)) " ")
      with (String " " (Join (map quoted (b :: args)) " ")).
    cbn [words_from].
    change (Ascii.eqb " " dquote) with false.
    change (Ascii.eqb " " " " && negb false) with true. cbv iota.
    rewrite (IH b EmptyString Hall). reflexivity.
Qed.

(** X11.  The command line reads back.  For a command that is not blank
    and has neither a space nor a double quote in it, and arguments with no
    double quote in them, [prepareCommandLine] returns a line that, cut at
    the spaces outside double quotes and with the quotes taken off, is the
    command and the arguments again: arguments with spaces or tabs in
    them, and empty arguments, come back as they were. *)
Theorem prepareCommandLine_reads_back (cmd : string) (args : list string) :
  isBlank cmd = false ->
  ContainsRune cmd dquote = false -> ContainsRune cmd " " = false ->
  Forall (fun arg => ContainsRune arg dquote = false) args ->
  exists line : string,
    prepareCommandLine cmd args = (line, None) /\
    commandWords line = cmd :: args.
Proof.
  intros Hblank Hdq Hsp Hall. unfold prepareCommandLine.
  rewrite Hblank, (quoteArgs_clean args 0 Hall).
  destruct args as [|a args].
  - exists cmd. split; [reflexivity|].
    unfold commandWords. rewrite <- (append_empty_r cmd) at 1.
    rewrite words_from_plain by auto. reflexivity.
  - eexists. split; [reflexivity|].
    unfold commandWords. rewrite words_from_plain by auto.
    change (" " +:+ Join (map quoted (a :: args)) " ")
      with (String " " (Join (map quoted (a :: args)) " ")).
    cbn [words_from].
    change (Ascii.eqb " " dquote) with false.
    change (Ascii.eqb " " " " && negb false) with true. cbv iota.
    rewrite (words_from_Join args a EmptyString Hall). reflexivity.
Qed.

Lemma prepareCommandLine_reads_back_witness :
  isBlank "ls" = false
  /\ ContainsRune "ls" dquote = false /\ ContainsRune "ls" " " = false
  /\ Forall (fun arg => ContainsRune arg dquote = false) ["-l"; "my dir"; ""]
  /\ exists line : string,
       prepareCommandLine "ls" ["-l"; "my dir"; ""] = (line, None) /\
       commandWords line = ["ls"; "-l"; "my dir"; ""].
Proof.
  assert (Hall : Forall (fun arg => ContainsRune arg dquote = false)
                   ["-l"; "my dir"; ""]) by (repeat constructor).
  repeat (split; [reflexivity || exact Hall|]).
  exact (prepareCommandLine_reads_back "ls" ["-l"; "my dir"; ""]
           eq_refl eq_refl eq_refl Hall).
Defined.

(** * More of the facade *)

Section FacadeContext.
Context {E : Env}.

(** Takes a facade call apart, down to the results of the calls on the
    server and the connections. *)
Ltac facade_cases :=
  unfold getSyncConn, dialDevice, getAttribute, wrapResult, wrapClientError,
    mbind, IO_bind, mret, IO_ret;
  repeat case_match; intros; simplify_eq/=;
  repeat match goal with
         | H : _ <$> ?o = Some _ |- _ => destruct o; simplify_eq/=
         end;
  try reflexivity.

(** X12.  Every error that comes out of [Serial], [DevicePath], [Remount],
    [RunCommand], [Stat], [ListDirEntries], [OpenRead] or [OpenWrite], on
    whatever server and at whatever step, is one built by
    [wrapClientError]: its details name the operation (with the path, for
    the four file operations) and the descriptor of the device. *)
Theorem facade_errors_wrapped (c : Device E) (w w' : World E) (e : error) :
  (forall v, Serial c w = (v, Some e, w') ->
             Details e = ClientDetails "Serial" (descriptor c))
  /\ (forall v, DevicePath c w = (v, Some e, w') ->
                Details e = ClientDetails "DevicePath" (descriptor c))
  /\ (forall v, Remount c w = (v, Some e, w') ->
                Details e = ClientDetails "Remount" (descriptor c))
  /\ (forall cmd args v,
        RunCommand c cmd args w = (v, Some e, w') ->
        Details e = ClientDetails "RunCommand" (descriptor c))
  /\ (forall path,
        Stat c path w = (inr e, w') ->
        Details e = ClientDetails ("Stat(" +:+ path +:+ ")") (descriptor c))
  /\ (forall path,
        ListDirEntries c path w = (inr e, w') ->
        Details e
        = ClientDetails ("ListDirEntries(" +:+ path +:+ ")") (descriptor c))
  /\ (forall path,
        OpenRead c path w = (inr e, w') ->
        Details e
        = ClientDetails ("OpenRead(" +:+ path +:+ ")") (descriptor c))
  /\ (forall path perms mtime,
        OpenWrite c path perms mtime w = (inr e, w') ->
        Details e
        = ClientDetails ("OpenWrite(" +:+ path +:+ ")") (descriptor c)).
Proof.
  repeat split.
  - intros v. unfold Serial. facade_cases.
  - intros v. unfold DevicePath. facade_cases.
  - intros v. unfold Remount. facade_cases.
  - intros cmd args v. apply RunCommand_wraps.
  - intros path. unfold Stat. facade_cases.
  - intros path. unfold ListDirEntries. facade_cases.
  - intros path. unfold OpenRead. facade_cases.
  - intros path perms mtime. unfold OpenWrite. facade_cases.
Qed.

(** X13.  A command line that [prepareCommandLine] refuses goes nowhere:
    [RunCommand], [RunCommandV2WithStd] and [RunCommandV2] return its
    error, wrapped, and leave the world as it was, so no connection is
    opened.  The two v2 calls return the exit code -1, and the sinks are
    not written to. *)
Theorem RunCommand_refused_before_dial (c : Device E) (cmd : string)
    (args : list string) (e : error) (w : World E) :
  (prepareCommandLine cmd args).2 = Some e ->
  RunCommand c cmd args w
  = (EmptyString, Some (clientError e c "RunCommand"), w)
  /\ (forall (W1 W2 : Type) (HW1 : Writer W1) (HW2 : Writer W2)
             (out : option W1) (err : option W2),
        RunCommandV2WithStd c out err cmd args w
        = (-1, Some (clientError e c "RunCommand"), out, err, w))
  /\ RunCommandV2 c cmd args w
     = (-1, EmptyString, EmptyString, Some (clientError e c "RunCommand"), w).
Proof.
  intros Herr. unfold RunCommandV2, RunCommandV2WithStd, RunCommand.
  unfold mbind, IO_bind, mret, IO_ret.
  destruct (prepareCommandLine cmd args) as [line err]. cbn [snd] in Herr.
  subst err. repeat split.
Qed.

(** X14.  [DeviceInfo] looks the device up by the serial that the server
    reports for it.  When the list of devices holds an entry with this
    serial, it returns such an entry; when it holds none, it returns a
    [DeviceNotFound] error, wrapped with the operation and the
    descriptor. *)
Theorem Device_DeviceInfo_lookup (c : Device E) (w w1 w2 : World E)
    (serial : string) (devices : list DeviceInfo) :
  Serial c w = (serial, None, w1) ->
  deviceListFunc c w1 = (devices, None, w2) ->
  ((exists d, d ∈ devices /\ DeviceInfo_Serial d = serial) ->
   exists d, Device_DeviceInfo c w = (inl d, w2) /\
             d ∈ devices /\ DeviceInfo_Serial d = serial)
  /\ ((forall d, d ∈ devices -> DeviceInfo_Serial d <> serial) ->
      exists e, Device_DeviceInfo c w = (inr e, w2) /\
                Code e = Some DeviceNotFound /\
                Details e = ClientDetails "DeviceInfo" (descriptor c)).
Proof.
  intros Hserial Hlist. unfold Device_DeviceInfo, mbind, IO_bind.
  rewrite Hserial, Hlist.
  destruct (List.find _ devices) as [d|] eqn:Hfind.
  - apply find_some in Hfind as [Hin Heq].
    apply list_elem_of_In in Hin. apply String.eqb_eq in Heq.
    split.
    + intros _. by exists d.
    + intros Hnone. destruct (Hnone d Hin Heq).
  - split.
    + intros (d & Hin & Heq). apply list_elem_of_In in Hin.
      apply (find_none _ _ Hfind) in Hin.
      apply String.eqb_neq in Hin. congruence.
    + intros _. eexists. split; [reflexivity|]. by split.
Qed.

End FacadeContext.

Lemma RunCommand_refused_before_dial_witness :
  (prepareCommandLine " " ["-l"]).2
  = Some (Errorf AssertionError "command cannot be empty")
  /\ RunCommand (scripted_device AnyDevice) " " ["-l"] (script [])
     = (EmptyString,
        Some (clientError (Errorf AssertionError "command cannot be empty")
                (scripted_device AnyDevice) "RunCommand"),
        script []).
Proof.
  split; [reflexivity|].
  exact (proj1 (RunCommand_refused_before_dial (scripted_device AnyDevice)
                  " " ["-l"] _ (script []) eq_refl)).
Defined.

Lemma Device_DeviceInfo_lookup_witness :
  Serial listed_device (script [])
  = ("", None, {| Errs := []; Trace := ["RoundTrip"] |})
  /\ deviceListFunc listed_device {| Errs := []; Trace := ["RoundTrip"] |}
     = ([listed_info], None, {| Errs := []; Trace := ["RoundTrip"] |})
  /\ (exists d, d ∈ [listed_info] /\ DeviceInfo_Serial d = "")
  /\ exists d, Device_DeviceInfo listed_device (script [])
               = (inl d, {| Errs := []; Trace := ["RoundTrip"] |})
               /\ d ∈ [listed_info] /\ DeviceInfo_Serial d = "".
Proof.
  assert (Hserial : Serial listed_device (script [])
                    = ("", None, {| Errs := []; Trace := ["RoundTrip"] |}))
    by reflexivity.
  assert (Hlist : deviceListFunc listed_device
                    {| Errs := []; Trace := ["RoundTrip"] |}
                  = ([listed_info], None,
                     {| Errs := []; Trace := ["RoundTrip"] |}))
    by reflexivity.
  assert (Hex : exists d, d ∈ [listed_info] /\ DeviceInfo_Serial d = "")
    by (exists listed_info; split; [by left | reflexivity]).
  repeat (split; [assumption|]).
  exact (proj1 (Device_DeviceInfo_lookup listed_device _ _ _ _ _
                  Hserial Hlist) Hex).
Defined.

Lemma facade_errors_wrapped_witness :
  Stat (scripted_device (BySerial "emulator-5554")) "/sdcard/f"
    (script [None; None; None; None; None;
             Some (Errorf AdbError "No such file or directory")])
  = (inr (clientError (Errorf AdbError "No such file or directory")
            (scripted_device (BySerial "emulator-5554")) "Stat(/sdcard/f)"),
     {| Errs := [];
        Trace := ["Dial"; "SendMessage"; "ReadStatus"; "SendMessage";
                  "ReadStatus"; "STAT"; "Close"] |})
  /\ Details (clientError (Errorf AdbError "No such file or directory")
                (scripted_device (BySerial "emulator-5554"))
                "Stat(/sdcard/f)")
     = ClientDetails "Stat(/sdcard/f)" (BySerial "emulator-5554").
Proof.
  assert (Hstat :
    Stat (scripted_device (BySerial "emulator-5554")) "/sdcard/f"
      (script [None; None; None; None; None;
               Some (Errorf AdbError "No such file or directory")])
    = (inr (clientError (Errorf AdbError "No such file or directory")
              (scripted_device (BySerial "emulator-5554")) "Stat(/sdcard/f)"),
       {| Errs := [];
          Trace := ["Dial"; "SendMessage"; "ReadStatus"; "SendMessage";
                    "ReadStatus"; "STAT"; "Close"] |})) by reflexivity.
  split; [exact Hstat|].
  exact (proj1 (proj2 (proj2 (proj2 (proj2
           (facade_errors_wrapped _ _ _ _))))) "/sdcard/f" Hstat).
Defined.

(** ** Connections are closed *)

(** Goes through a call on the scripted server, one case for each call that
    the script makes succeed or fail. *)
Ltac script_cases :=
  unfold dialDevice, mbind, IO_bind, mret, IO_ret, closes_conn_once,
    first_call_succeeds;
  cbn -[String.append calls last];
  repeat case_match; simplify_eq/=;
  (split; [reflexivity | intros; done]).

(** X15.  On the scripted server, whatever call fails and wherever:
    [RunCommand], [RunCommandV2WithStd] and [Remount] close the connection
    they opened exactly once, as the last thing they do, and close nothing
    when the dial failed. *)
Theorem shell_calls_close_conn (d : DeviceDescriptor) (cmd line : string)
    (args : list string) (errs : list (option error)) :
  prepareCommandLine cmd args = (line, None) ->
  closes_conn_once errs
    (Trace (RunCommand (scripted_device d) cmd args (script errs)).2)
  /\ closes_conn_once errs
       (Trace (RunCommandV2WithStd (W1:=Buffer) (W2:=Buffer)
                 (scripted_device d) None None cmd args (script errs)).2)
  /\ closes_conn_once errs
       (Trace (Remount (scripted_device d) (script errs)).2).
Proof.
  intros Hline. split; [|split].
  - unfold RunCommand. rewrite Hline. script_cases.
  - unfold RunCommandV2WithStd. rewrite Hline. script_cases.
  - unfold Remount. script_cases.
Qed.

Lemma shell_calls_close_conn_witness :
  prepareCommandLine "ls" ["-l"] = ("ls -l", None)
  /\ closes_conn_once [None; None; Some (Errorf AdbError "device offline")]
       (Trace (RunCommand (scripted_device AnyDevice) "ls" ["-l"]
                 (script [None; None;
                          Some (Errorf AdbError "device offline")])).2).
Proof.
  split; [reflexivity|].
  exact (proj1 (shell_calls_close_conn AnyDevice "ls" "ls -l" ["-l"]
                  [None; None; Some (Errorf AdbError "device offline")]
                  eq_refl)).
Defined.
